(** * CIEDE2000 colour difference (KaspariK/CIEDE2000, ciede2000.go)

    A shallow embedding of [ciede2000.go] over IEEE binary64 numbers.

    - Go's [float64] is Rocq's primitive [float]; each Go operation is one
      correctly rounded primitive operation ([+ - * /], [math.Sqrt] is
      [PrimFloat.sqrt], [math.Abs] is [PrimFloat.abs]).  Each operation is
      rounded on its own, as Go does on amd64 (no fused multiply-add).
    - Go float constants are the nearest binary64 values, as Rocq's float
      literals are; untyped integer constant expressions ([1/3], [16/116])
      are evaluated with Go's truncating integer division first.
    - [math.Pow], [math.Atan2], [math.Sin], [math.Cos], [math.Exp] and
      [math.Asin] are the fields of a record [GoMath] every definition takes
      as a parameter; a theorem that depends on how they behave states that
      as a hypothesis taken from the documented special cases of Go's
      [math] package.
    - [color.Color] is Go's interface: a value with a method [RGBA()]
      returning four [uint32] in [0, 0xffff]. *)

From Stdlib Require Import ZArith Bool Lia List QArith Qpower Lqa.
From Stdlib Require Import Floats.

Set Warnings "-inexact-float".
Open Scope float_scope.

(** ** image/color *)

Module color.

(** The interface [color.Color]: [RGBA()] returns the alpha-premultiplied
    red, green, blue and alpha values, each a [uint32] in [0, 0xffff]. *)
Record Color := { RGBA : Z * Z * Z * Z }.

(** [color.RGBA], 8 bits per channel; its [RGBA()] method:
    [r = uint32(c.R); r |= r << 8] and the same for g, b, a. *)
Record RGBA8 := { R : Z; G : Z; B : Z; A : Z }.

Definition widen8 (v : Z) : Z := Z.lor v (Z.shiftl v 8).

Definition RGBA8_RGBA (c : RGBA8) : Z * Z * Z * Z :=
  (widen8 c.(R), widen8 c.(G), widen8 c.(B), widen8 c.(A)).

Definition of_RGBA8 (c : RGBA8) : Color := {| RGBA := RGBA8_RGBA c |}.

(** [color.RGBA64], 16 bits per channel; [RGBA()] returns the fields. *)
Record RGBA64 := { R16 : Z; G16 : Z; B16 : Z; A16 : Z }.

Definition of_RGBA64 (c : RGBA64) : Color :=
  {| RGBA := (c.(R16), c.(G16), c.(B16), c.(A16)) |}.

(** [color.NRGBA], 8 bits per channel, not alpha-premultiplied; its
    [RGBA()] method: [r = uint32(c.R); r |= r << 8; r *= uint32(c.A);
    r /= 0xff], the same for g and b, and [a = uint32(c.A); a |= a << 8]. *)
Record NRGBA := { NR : Z; NG : Z; NB : Z; NA : Z }.

Definition premultiply (v alpha : Z) : Z := Z.div (widen8 v * alpha) 255.

Definition NRGBA_RGBA (c : NRGBA) : Z * Z * Z * Z :=
  (premultiply c.(NR) c.(NA), premultiply c.(NG) c.(NA),
   premultiply c.(NB) c.(NA), widen8 c.(NA)).

Definition of_NRGBA (c : NRGBA) : Color := {| RGBA := NRGBA_RGBA c |}.

(** A [color.RGBA] value is well formed when its fields are bytes. *)
Definition byte_ok (v : Z) : bool := (0 <=? v)%Z && (v <=? 255)%Z.

End color.

Import color.

(** Go's conversion [float64(u)] of a [uint32]: exact. *)
Definition float64_of_uint32 (u : Z) : float := of_uint63 (Uint63.of_Z u).

(** Go untyped integer constant expressions: [a / b] truncates. *)
Definition const_int_div (a b : Z) : float := float64_of_uint32 (Z.quot a b).

Record xyz := { x : float; y : float; z : float }.
Record lab := { l : float; a : float; b : float }.

(** The functions of Go's [math] package the program calls.  [math.Sqrt]
    and [math.Abs] are exact IEEE operations and are not listed. *)
Record GoMath := {
  Pow : float -> float -> float;
  Atan2 : float -> float -> float;
  Sin : float -> float;
  Cos : float -> float;
  Exp : float -> float;
  Asin : float -> float }.

Section CIEDE2000.

Variable math : GoMath.

(** [toXYZ], lines 130-166: the first three statements. *)
Definition normalized (c : Color) : float * float * float :=
  let '(sR, sG, sB, _) := c.(RGBA) in
  let r := float64_of_uint32 sR in
  let g := float64_of_uint32 sG in
  let b := float64_of_uint32 sB in
  (r / 255, g / 255, b / 255).

(** The linearisation block of [toXYZ] (lines 139-155), written out once
    per channel in the source:
    [if v > 0.04045 { v = math.Pow((v+0.055)/1.055, 2.4) } else { v /= 12.92 }]. *)
Definition linearize (v : float) : float :=
  if 0.04045 <? v then math.(Pow) ((v + 0.055) / 1.055) 2.4 else v / 12.92.

(** [toXYZ], lines 130-166. *)
Definition toXYZ (c : Color) : xyz :=
  let '(sR, sG, sB, _) := c.(RGBA) in
  let r := float64_of_uint32 sR in
  let g := float64_of_uint32 sG in
  let b := float64_of_uint32 sB in
  let r := r / 255 in
  let g := g / 255 in
  let b := b / 255 in
  let r := linearize r in
  let g := linearize g in
  let b := linearize b in
  let r := r * 100 in
  let g := g * 100 in
  let b := b * 100 in
  {| x := ((r * 0.4124) + (g * 0.3576)) + (b * 0.1805);
     y := ((r * 0.2126) + (g * 0.7152)) + (b * 0.0722);
     z := ((r * 0.0193) + (g * 0.1192)) + (b * 0.9505) |}.

(** The companding block of [toLAB] (lines 183-199), written out once per
    axis in the source:
    [if v > 0.008856 { v = math.Pow(v, 1/3) } else { v = (v * 7.787) + (16 / 116) }]
    where [1/3] and [16/116] are untyped integer constants, both 0. *)
Definition compand (v : float) : float :=
  if 0.008856 <? v then math.(Pow) v (const_int_div 1 3)
  else (v * 7.787) + const_int_div 16 116.

(** [toLAB], lines 174-206. *)
Definition toLAB (c : Color) : lab :=
  let xyz := toXYZ c in
  let x := xyz.(x) / 95.047 in
  let y := xyz.(y) / 100.000 in
  let z := xyz.(z) / 108.883 in
  let x := compand x in
  let y := compand y in
  let z := compand z in
  {| l := (116 * y) - 16;
     a := 500 * (x - y);
     b := 200 * (y - z) |}.

(** Lines 35-46 of [Distance]: the corrected chromas [C'_1], [C'_2]. *)
Definition cPrimes (l1 l2 : lab) : float * float :=
  let cStar1 := sqrt ((l1.(a) * l1.(a)) + (l1.(b) * l1.(b))) in
  let cStar2 := sqrt ((l2.(a) * l2.(a)) + (l2.(b) * l2.(b))) in
  let cBar := (cStar1 + cStar2) / 2 in
  let g := 0.5 * (1 - sqrt (math.(Pow) cBar 7 / (math.(Pow) cBar 7 + math.(Pow) 25 7))) in
  let aPrime1 := (1 + g) * l1.(a) in
  let aPrime2 := (1 + g) * l2.(a) in
  (sqrt ((aPrime1 * aPrime1) + (l1.(b) * l1.(b))),
   sqrt ((aPrime2 * aPrime2) + (l2.(b) * l2.(b)))).

(** The hue angle of one input, lines 48-62 of [Distance] (written out
    once per input in the source):
    [if b == 0 && aPrime == 0 { h = 0 } else { h = math.Atan2(b, aPrime) }]. *)
Definition hPrime (b aPrime : float) : float :=
  if (b =? 0) && (aPrime =? 0) then 0 else math.(Atan2) b aPrime.

(** Line 100 of [Distance]:
    [rC := 2 * math.Sqrt(math.Pow(cBarPrime, 7)/(math.Pow(cBarPrime, 7)*math.Pow(25, 7)))]. *)
Definition rC (cBarPrime : float) : float :=
  2 * sqrt (math.(Pow) cBarPrime 7 / (math.(Pow) cBarPrime 7 * math.(Pow) 25 7)).

(** Lines 34-119 of [Distance]: everything after the two [toLAB] calls. *)
Definition distanceLAB (l1 l2 : lab) : float :=
  let cStar1 := sqrt ((l1.(a) * l1.(a)) + (l1.(b) * l1.(b))) in
  let cStar2 := sqrt ((l2.(a) * l2.(a)) + (l2.(b) * l2.(b))) in
  let cBar := (cStar1 + cStar2) / 2 in
  let g := 0.5 * (1 - sqrt (math.(Pow) cBar 7 / (math.(Pow) cBar 7 + math.(Pow) 25 7))) in
  let aPrime1 := (1 + g) * l1.(a) in
  let aPrime2 := (1 + g) * l2.(a) in
  let cPrime1 := sqrt ((aPrime1 * aPrime1) + (l1.(b) * l1.(b))) in
  let cPrime2 := sqrt ((aPrime2 * aPrime2) + (l2.(b) * l2.(b))) in
  let hPrime1 := hPrime l1.(b) aPrime1 in
  let hPrime2 := hPrime l2.(b) aPrime2 in
  let deltaL := l2.(l) - l1.(l) in
  let deltaC := cPrime2 - cPrime1 in
  let deltaH :=
    if (cPrime1 * cPrime2) =? 0 then 0
    else if abs (hPrime2 - hPrime1) <=? 180 then hPrime2 - hPrime1
    else if 180 <? hPrime2 - hPrime1 then (hPrime2 - hPrime1) - 360
    else (hPrime2 - hPrime1) + 360 in
  let deltaH := (2 * sqrt (cPrime1 * cPrime2)) * math.(Sin) (deltaH / 2) in
  let lBarPrime := (l1.(l) + l2.(l)) / 2 in
  let cBarPrime := (cPrime1 + cPrime2) / 2 in
  let hBarPrime :=
    if (cPrime1 * cPrime2) =? 0 then hPrime1 + hPrime2
    else if abs (hPrime1 - hPrime2) <=? 180 then (hPrime1 + hPrime2) / 2
    else if (180 <? abs (hPrime1 - hPrime2)) && (abs (hPrime1 - hPrime2) <? 360)
    then ((hPrime1 + hPrime2) + 360) / 2
    else ((hPrime1 + hPrime2) - 360) / 2 in
  let t := (((1 - (0.17 * math.(Cos) (hBarPrime - 30))) + (0.24 * math.(Cos) (2 * hBarPrime)))
            + (0.32 * math.(Cos) ((3 * hBarPrime) + 6))) - (0.20 * math.(Cos) ((4 * hBarPrime) - 63)) in
  let deltaTheta := 30 * math.(Exp) (- (((hBarPrime - 275) / 25) * ((hBarPrime - 275) / 25))) in
  let rC := rC cBarPrime in
  let sL := 1 + ((0.015 * ((lBarPrime - 50) * (lBarPrime - 50)))
                 / sqrt (20 + ((lBarPrime - 50) * (lBarPrime - 50)))) in
  let sC := 1 + (0.045 * cBarPrime) in
  let sH := 1 + ((0.015 * cBarPrime) * t) in
  let rT := math.(Asin) (2 * deltaTheta) * rC in
  let kL := 1.0 in
  let kC := 1.0 in
  let kH := 1.0 in
  let deltaL := deltaL / (kL * sL) in
  let deltaC := deltaC / (kC * sC) in
  let deltaH := deltaH / (kH * sH) in
  sqrt ((((deltaL * deltaL) + (deltaC * deltaC)) + (deltaH * deltaH))
        + ((rT * deltaC) * deltaH)).

(** [distanceLAB] as the specification writes its rotation term,
    [R_T = sin(2 Δθ) R_C]: line 106 with [math.Sin] where the code calls
    [math.Asin]; every other line as in [distanceLAB]. *)
Definition distanceLAB_spec_rT (l1 l2 : lab) : float :=
  let cStar1 := sqrt ((l1.(a) * l1.(a)) + (l1.(b) * l1.(b))) in
  let cStar2 := sqrt ((l2.(a) * l2.(a)) + (l2.(b) * l2.(b))) in
  let cBar := (cStar1 + cStar2) / 2 in
  let g := 0.5 * (1 - sqrt (math.(Pow) cBar 7 / (math.(Pow) cBar 7 + math.(Pow) 25 7))) in
  let aPrime1 := (1 + g) * l1.(a) in
  let aPrime2 := (1 + g) * l2.(a) in
  let cPrime1 := sqrt ((aPrime1 * aPrime1) + (l1.(b) * l1.(b))) in
  let cPrime2 := sqrt ((aPrime2 * aPrime2) + (l2.(b) * l2.(b))) in
  let hPrime1 := hPrime l1.(b) aPrime1 in
  let hPrime2 := hPrime l2.(b) aPrime2 in
  let deltaL := l2.(l) - l1.(l) in
  let deltaC := cPrime2 - cPrime1 in
  let deltaH :=
    if (cPrime1 * cPrime2) =? 0 then 0
    else if abs (hPrime2 - hPrime1) <=? 180 then hPrime2 - hPrime1
    else if 180 <? hPrime2 - hPrime1 then (hPrime2 - hPrime1) - 360
    else (hPrime2 - hPrime1) + 360 in
  let deltaH := (2 * sqrt (cPrime1 * cPrime2)) * math.(Sin) (deltaH / 2) in
  let lBarPrime := (l1.(l) + l2.(l)) / 2 in
  let cBarPrime := (cPrime1 + cPrime2) / 2 in
  let hBarPrime :=
    if (cPrime1 * cPrime2) =? 0 then hPrime1 + hPrime2
    else if abs (hPrime1 - hPrime2) <=? 180 then (hPrime1 + hPrime2) / 2
    else if (180 <? abs (hPrime1 - hPrime2)) && (abs (hPrime1 - hPrime2) <? 360)
    then ((hPrime1 + hPrime2) + 360) / 2
    else ((hPrime1 + hPrime2) - 360) / 2 in
  let t := (((1 - (0.17 * math.(Cos) (hBarPrime - 30))) + (0.24 * math.(Cos) (2 * hBarPrime)))
            + (0.32 * math.(Cos) ((3 * hBarPrime) + 6))) - (0.20 * math.(Cos) ((4 * hBarPrime) - 63)) in
  let deltaTheta := 30 * math.(Exp) (- (((hBarPrime - 275) / 25) * ((hBarPrime - 275) / 25))) in
  let rC := rC cBarPrime in
  let sL := 1 + ((0.015 * ((lBarPrime - 50) * (lBarPrime - 50)))
                 / sqrt (20 + ((lBarPrime - 50) * (lBarPrime - 50)))) in
  let sC := 1 + (0.045 * cBarPrime) in
  let sH := 1 + ((0.015 * cBarPrime) * t) in
  let rT := math.(Sin) (2 * deltaTheta) * rC in
  let kL := 1.0 in
  let kC := 1.0 in
  let kH := 1.0 in
  let deltaL := deltaL / (kL * sL) in
  let deltaC := deltaC / (kC * sC) in
  let deltaH := deltaH / (kH * sH) in
  sqrt ((((deltaL * deltaL) + (deltaC * deltaC)) + (deltaH * deltaH))
        + ((rT * deltaC) * deltaH)).

(** [Distance], lines 30-120. *)
Definition Distance (c1 c2 : Color) : float :=
  let l1 := toLAB c1 in
  let l2 := toLAB c2 in
  distanceLAB l1 l2.

End CIEDE2000.

(** [Distance] regrouped in stages, for the proofs: [primes] computes the
    corrected chromas and hue angles of both inputs, [deltaH0] and [hBar0]
    are the two hue branches (lines 67-77 and 84-94), and [finish] is the
    rest of the body.  [distanceLAB_stages] below shows that composing them
    gives [distanceLAB]. *)
Section Stages.

Variable math : GoMath.

Definition primes (l1 l2 : lab) : float * float * float * float :=
  let cStar1 := sqrt ((l1.(a) * l1.(a)) + (l1.(b) * l1.(b))) in
  let cStar2 := sqrt ((l2.(a) * l2.(a)) + (l2.(b) * l2.(b))) in
  let cBar := (cStar1 + cStar2) / 2 in
  let g := 0.5 * (1 - sqrt (math.(Pow) cBar 7 / (math.(Pow) cBar 7 + math.(Pow) 25 7))) in
  let aPrime1 := (1 + g) * l1.(a) in
  let aPrime2 := (1 + g) * l2.(a) in
  let cPrime1 := sqrt ((aPrime1 * aPrime1) + (l1.(b) * l1.(b))) in
  let cPrime2 := sqrt ((aPrime2 * aPrime2) + (l2.(b) * l2.(b))) in
  (cPrime1, cPrime2, hPrime math l1.(b) aPrime1, hPrime math l2.(b) aPrime2).

Definition deltaH0 (p d : float) : float :=
  if p =? 0 then 0
  else if abs d <=? 180 then d
  else if 180 <? d then d - 360
  else d + 360.

Definition hBar0 (p hPrime1 hPrime2 : float) : float :=
  if p =? 0 then hPrime1 + hPrime2
  else if abs (hPrime1 - hPrime2) <=? 180 then (hPrime1 + hPrime2) / 2
  else if (180 <? abs (hPrime1 - hPrime2)) && (abs (hPrime1 - hPrime2) <? 360)
  then ((hPrime1 + hPrime2) + 360) / 2
  else ((hPrime1 + hPrime2) - 360) / 2.

Definition finish (deltaL deltaC dH0 lBarPrime p cBarPrime hBarPrime : float) : float :=
  let deltaH := (2 * sqrt p) * math.(Sin) (dH0 / 2) in
  let t := (((1 - (0.17 * math.(Cos) (hBarPrime - 30))) + (0.24 * math.(Cos) (2 * hBarPrime)))
            + (0.32 * math.(Cos) ((3 * hBarPrime) + 6))) - (0.20 * math.(Cos) ((4 * hBarPrime) - 63)) in
  let deltaTheta := 30 * math.(Exp) (- (((hBarPrime - 275) / 25) * ((hBarPrime - 275) / 25))) in
  let rC := rC math cBarPrime in
  let sL := 1 + ((0.015 * ((lBarPrime - 50) * (lBarPrime - 50)))
                 / sqrt (20 + ((lBarPrime - 50) * (lBarPrime - 50)))) in
  let sC := 1 + (0.045 * cBarPrime) in
  let sH := 1 + ((0.015 * cBarPrime) * t) in
  let rT := math.(Asin) (2 * deltaTheta) * rC in
  let kL := 1.0 in
  let kC := 1.0 in
  let kH := 1.0 in
  let deltaL := deltaL / (kL * sL) in
  let deltaC := deltaC / (kC * sC) in
  let deltaH := deltaH / (kH * sH) in
  sqrt ((((deltaL * deltaL) + (deltaC * deltaC)) + (deltaH * deltaH))
        + ((rT * deltaC) * deltaH)).

End Stages.

(** The inputs used in the examples: [color.RGBA{0, 0, 0, 255}] (black)
    and [color.RGBA{255, 255, 255, 255}] (white). *)
Definition black : Color := of_RGBA8 {| R := 0; G := 0; B := 0; A := 255 |}.
Definition white : Color := of_RGBA8 {| R := 255; G := 255; B := 255; A := 255 |}.

(** [color.NRGBA{1, 0, 0, 1}]: one red step at alpha 1.  [RGBA()]
    returns [(1, 0, 0, 257)]; no [math] function is reached by [toLAB] on
    it (every value stays below both thresholds), so its LAB value is the
    same for every [math]. *)
Definition dim_red : Color := of_NRGBA {| NR := 1; NG := 0; NB := 0; NA := 1 |}.

(** The two facts checked on every non-zero byte: the normalised channel
    is above [0.04045], and the base passed to [math.Pow] is at least 1. *)
Definition lin_check (v : Z) : bool :=
  let r := float64_of_uint32 (widen8 v) / 255 in
  (0.04045 <? r) && (1 <=? (r + 0.055) / 1.055).

(** [check_from f u n] holds when [f] holds of [u], [u + 1], ..., [u + n - 1]:
    a scan over a range of [RGBA()] channel values. *)
Fixpoint check_from (f : Z -> bool) (u : Z) (n : nat) : bool :=
  match n with
  | O => true
  | S k => f u && check_from f (Z.succ u) k
  end.

(** What the first steps of [toXYZ] do with one [RGBA()] channel value [u]:
    the normalised value [float64(u) / 255] is between 0 and 257, is above 1
    exactly when [u > 255], and is above the linearisation threshold
    [0.04045] exactly when [u >= 11]. *)
Definition u16_check (u : Z) : bool :=
  let v := float64_of_uint32 u / 255 in
  (0 <=? v) && (v <=? 257) && Bool.eqb (1 <? v) (255 <? u)%Z
  && Bool.eqb (0.04045 <? v) (11 <=? u)%Z.

(** The range of a normalised channel [v] of the [RGBA()] value [u]. *)
Definition channel_range (u : Z) (v : float) : Prop :=
  (0 <=? v) = true /\ (v <=? 257) = true /\ (1 <? v) = (255 <? u)%Z.

(** A computable stand-in for the [math] functions, used only to evaluate
    the theorems at concrete inputs: it satisfies the special cases the
    theorems assume, and is not Go's implementation.  [Pow] multiplies out
    small integral exponents and returns its base for any other exponent;
    [Sin] and [Asin] are the identity, [Cos] and [Exp] are constantly 1 and
    [Atan2] constantly 0. *)
Module StandIn.

Fixpoint pow_nat (x : float) (n : nat) : float :=
  match n with
  | O => 1
  | S k => x * pow_nat x k
  end.

Fixpoint int_exponent (y : float) (n : nat) : option nat :=
  if y =? of_uint63 (Uint63.of_Z (Z.of_nat n)) then Some n
  else match n with
       | O => None
       | S k => int_exponent y k
       end.

Definition pow (x y : float) : float :=
  match int_exponent y 16 with
  | Some n => pow_nat x n
  | None => x
  end.

Definition math : GoMath :=
  {| Pow := pow; Atan2 := fun _ _ => 0; Sin := fun t => t;
     Cos := fun _ => 1; Exp := fun _ => 1; Asin := fun t => t |}.

End StandIn.

(** For channel values [r], [g], [b] at most 10, [linearize] divides by
    12.92 whatever [math] is, so [StandIn.math] computes the XYZ value;
    [dark_check] says that the companding step of [toLAB] takes its
    [else] branch on all three axes of it. *)
Definition dark_check (r g b : Z) : bool :=
  let p := toXYZ StandIn.math {| RGBA := (r, g, b, 0%Z) |} in
  negb (0.008856 <? p.(x) / 95.047) && negb (0.008856 <? p.(y) / 100.000)
  && negb (0.008856 <? p.(z) / 108.883).

Definition dark_all : bool :=
  check_from (fun r => check_from (fun g => check_from (fun b => dark_check r g b) 0 11) 0 11) 0 11.

(** * Facts about binary64 arithmetic

    Proved from the specification of the primitive operations
    ([Prim2SF (x + y) = SF64add (Prim2SF x) (Prim2SF y)] and so on). *)

Module FloatFacts.

(** ** Rounding and signs *)

Lemma round_aux_negb s m e lc :
  binary_round_aux prec emax (negb s) m e lc = SFopp (binary_round_aux prec emax s m e lc).
Proof.
  unfold binary_round_aux.
  destruct (shr_fexp prec emax m e lc) as [mrs e'].
  destruct (shr_fexp prec emax _ e' loc_Exact) as [mrs'' e''].
  destruct (shr_m mrs''); try destruct (Z.leb _ _); reflexivity.
Qed.

Lemma round_negb s m e :
  binary_round prec emax (negb s) m e = SFopp (binary_round prec emax s m e).
Proof.
  unfold binary_round. destruct (shl_align _ _ _) as [mz ez]. apply round_aux_negb.
Qed.

Lemma normalize_opp z e :
  z <> 0%Z ->
  binary_normalize prec emax (Z.opp z) e false = SFopp (binary_normalize prec emax z e false).
Proof.
  intros Hz. destruct z as [|p|p]; [congruence| |]; simpl.
  - apply (round_negb false).
  - rewrite <- (round_negb true). reflexivity.
Qed.

(** [binary_normalize] of [-z] is the opposite of that of [z], or both are
    the positive zero. *)
Lemma normalize_neg z e :
  binary_normalize prec emax (Z.opp z) e false = SFopp (binary_normalize prec emax z e false) \/
  (binary_normalize prec emax (Z.opp z) e false = binary_normalize prec emax z e false /\
   binary_normalize prec emax z e false = S754_zero false).
Proof.
  destruct (Z.eq_dec z 0) as [H0|H0].
  - right. subst z. auto.
  - left. apply normalize_opp. exact H0.
Qed.

Lemma SFadd_comm x y : SF64add x y = SF64add y x.
Proof.
  unfold SF64add, SFadd.
  destruct x as [sx|sx| |sx mx ex], y as [sy|sy| |sy my ey];
    try destruct sx; try destruct sy; try reflexivity;
    rewrite Z.min_comm, Z.add_comm; reflexivity.
Qed.

Lemma SFmul_comm x y : SF64mul x y = SF64mul y x.
Proof.
  unfold SF64mul, SFmul.
  destruct x as [sx|sx| |sx mx ex], y as [sy|sy| |sy my ey];
    try destruct sx; try destruct sy; try reflexivity;
    rewrite Pos.mul_comm, Z.add_comm; reflexivity.
Qed.

Ltac round_sign :=
  first [ apply (round_aux_negb true) | apply (round_aux_negb false)
        | rewrite <- (round_aux_negb true); reflexivity
        | rewrite <- (round_aux_negb false); reflexivity ].

Lemma SFmul_opp_r x y : SF64mul x (SFopp y) = SFopp (SF64mul x y).
Proof.
  unfold SF64mul, SFmul.
  destruct x as [sx|sx| |sx mx ex], y as [sy|sy| |sy my ey];
    try destruct sx; try destruct sy; try reflexivity; simpl; round_sign.
Qed.

Lemma SFdiv_opp_l x y : SF64div (SFopp x) y = SFopp (SF64div x y).
Proof.
  unfold SF64div, SFdiv.
  destruct x as [sx|sx| |sx mx ex], y as [sy|sy| |sy my ey];
    try destruct sx; try destruct sy; try reflexivity; simpl;
    destruct (SFdiv_core_binary _ _ _ _ _ _) as [[mz ez] lz]; round_sign.
Qed.

Lemma SFsub_swap x y :
  SF64sub y x = SFopp (SF64sub x y) \/
  (SF64sub y x = SF64sub x y /\ SF64sub x y = S754_zero false).
Proof.
  unfold SF64sub, SFsub.
  destruct x as [sx|sx| |sx mx ex], y as [sy|sy| |sy my ey];
    try (destruct sx; destruct sy; simpl; auto; fail);
    try (destruct sx; simpl; auto; fail);
    try (destruct sy; simpl; auto; fail);
    try (simpl; auto; fail).
  cbv beta iota zeta. rewrite (Z.min_comm ey ex).
  set (A := cond_Zopp sx _). set (B := cond_Zopp sy _).
  replace (B - A)%Z with (Z.opp (A - B)) by lia. apply normalize_neg.
Qed.

Lemma SFadd_opp_l d c :
  SF64add (SFopp d) c = SFopp (SF64sub d c) \/
  (SF64add (SFopp d) c = SF64sub d c /\ SF64sub d c = S754_zero false).
Proof.
  unfold SF64add, SFadd, SF64sub, SFsub.
  destruct d as [sx|sx| |sx mx ex], c as [sy|sy| |sy my ey];
    try (destruct sx; destruct sy; simpl; auto; fail);
    try (destruct sx; simpl; auto; fail);
    try (destruct sy; simpl; auto; fail);
    try (simpl; auto; fail).
  cbv beta iota zeta delta [SFopp].
  set (B := cond_Zopp sy _).
  replace (cond_Zopp (negb sx) (Zpos (fst (shl_align mx ex (Z.min ex ey)))) + B)%Z
    with (Z.opp (cond_Zopp sx (Zpos (fst (shl_align mx ex (Z.min ex ey)))) - B))
    by (destruct sx; cbn [cond_Zopp negb]; lia).
  apply normalize_neg.
Qed.

Lemma SFsub_opp_l d c :
  SF64sub (SFopp d) c = SFopp (SF64add d c) \/
  (SF64sub (SFopp d) c = SF64add d c /\ SF64add d c = S754_zero false).
Proof.
  unfold SF64add, SFadd, SF64sub, SFsub.
  destruct d as [sx|sx| |sx mx ex], c as [sy|sy| |sy my ey];
    try (destruct sx; destruct sy; simpl; auto; fail);
    try (destruct sx; simpl; auto; fail);
    try (destruct sy; simpl; auto; fail);
    try (simpl; auto; fail).
  cbv beta iota zeta delta [SFopp].
  set (B := cond_Zopp sy _).
  replace (cond_Zopp (negb sx) (Zpos (fst (shl_align mx ex (Z.min ex ey)))) - B)%Z
    with (Z.opp (cond_Zopp sx (Zpos (fst (shl_align mx ex (Z.min ex ey)))) + B))
    by (destruct sx; cbn [cond_Zopp negb]; lia).
  apply normalize_neg.
Qed.

Lemma SFcompare_swap x y : SFcompare y x = option_map CompOpp (SFcompare x y).
Proof.
  destruct x as [sx|sx| |sx mx ex], y as [sy|sy| |sy my ey];
    try destruct sx; try destruct sy; simpl; try reflexivity.
  all: rewrite (Z.compare_antisym ex ey);
    destruct (Z.compare ex ey); simpl; try reflexivity.
  all: change (PosDef.Pos.compare_cont Eq my mx) with (Pos.compare my mx);
    change (PosDef.Pos.compare_cont Eq mx my) with (Pos.compare mx my);
    rewrite (Pos.compare_antisym mx my);
    destruct (Pos.compare mx my); reflexivity.
Qed.

(** ** The same facts on primitive floats *)

Lemma Prim2SF_nan : Prim2SF nan = S754_nan.
Proof. reflexivity. Qed.

Lemma add_comm x y : x + y = y + x.
Proof. apply Prim2SF_inj. rewrite !add_spec. apply SFadd_comm. Qed.

Lemma mul_comm x y : x * y = y * x.
Proof. apply Prim2SF_inj. rewrite !mul_spec. apply SFmul_comm. Qed.

Lemma opp_opp x : - - x = x.
Proof.
  apply Prim2SF_inj. rewrite !opp_spec.
  destruct (Prim2SF x); simpl; rewrite ?negb_involutive; reflexivity.
Qed.

Lemma mul_opp_r x y : x * (- y) = - (x * y).
Proof. apply Prim2SF_inj. rewrite opp_spec, !mul_spec, opp_spec. apply SFmul_opp_r. Qed.

Lemma mul_opp_l x y : (- x) * y = - (x * y).
Proof. rewrite mul_comm, mul_opp_r, mul_comm. reflexivity. Qed.

Lemma mul_opp_opp x y : (- x) * (- y) = x * y.
Proof. rewrite mul_opp_l, mul_opp_r, opp_opp. reflexivity. Qed.

Lemma div_opp_l x y : (- x) / y = - (x / y).
Proof. apply Prim2SF_inj. rewrite opp_spec, !div_spec, opp_spec. apply SFdiv_opp_l. Qed.

Lemma abs_opp x : abs (- x) = abs x.
Proof. apply Prim2SF_inj. rewrite !abs_spec, opp_spec. destruct (Prim2SF x); reflexivity. Qed.

Lemma zero_spec f : (f =? 0) = true <-> exists s, Prim2SF f = S754_zero s.
Proof.
  rewrite eqb_spec. change (Prim2SF 0) with (S754_zero false).
  destruct (Prim2SF f) as [s|s| |s m e]; try destruct s; simpl;
  split; intro H; try discriminate H; eauto; destruct H as [? H]; discriminate H.
Qed.

Lemma pos_zero_is_zero f : Prim2SF f = S754_zero false -> (f =? 0) = true.
Proof. intros H. apply zero_spec. eauto. Qed.

(** [v] is what [u] becomes when the two colours are swapped: its opposite,
    or [u] itself when [u] is a zero. *)
Definition swapped (u v : float) : Prop := v = - u \/ (v = u /\ (u =? 0) = true).

Lemma swapped_of_SF u v :
  Prim2SF v = SFopp (Prim2SF u) \/ (Prim2SF v = Prim2SF u /\ Prim2SF u = S754_zero false) ->
  swapped u v.
Proof.
  intros [H|[H1 H2]].
  - left. apply Prim2SF_inj. rewrite opp_spec. exact H.
  - right. split; [apply Prim2SF_inj; exact H1 | apply pos_zero_is_zero; exact H2].
Qed.

Lemma sub_swapped x y : swapped (x - y) (y - x).
Proof. apply swapped_of_SF. rewrite !sub_spec. apply SFsub_swap. Qed.

Lemma add_opp_swapped d c : swapped (d - c) ((- d) + c).
Proof. apply swapped_of_SF. rewrite add_spec, sub_spec, opp_spec. apply SFadd_opp_l. Qed.

Lemma sub_opp_swapped d c : swapped (d + c) ((- d) - c).
Proof. apply swapped_of_SF. rewrite sub_spec, add_spec, opp_spec. apply SFsub_opp_l. Qed.

(** ** Not-a-number propagates *)

Ltac nan_tac := apply Prim2SF_inj; rewrite ?add_spec, ?sub_spec, ?mul_spec, ?div_spec,
  ?sqrt_spec, ?opp_spec, Prim2SF_nan;
  first [ destruct (Prim2SF _); reflexivity | reflexivity ].

Lemma mul_nan_r x : x * nan = nan.  Proof. nan_tac. Qed.
Lemma mul_nan_l x : nan * x = nan.  Proof. nan_tac. Qed.
Lemma add_nan_r x : x + nan = nan.  Proof. nan_tac. Qed.
Lemma add_nan_l x : nan + x = nan.  Proof. nan_tac. Qed.
Lemma div_nan_r x : x / nan = nan.  Proof. nan_tac. Qed.
Lemma sqrt_nan : sqrt nan = nan.    Proof. nan_tac. Qed.
Lemma opp_nan : - nan = nan.        Proof. nan_tac. Qed.

Lemma SFeqb_refl x : x <> S754_nan -> SFeqb x x = true.
Proof.
  intros Hx. unfold SFeqb, SFcompare.
  destruct x as [s|s| |s m e]; try destruct s; try reflexivity; try congruence;
    rewrite Z.compare_refl, Pos.compare_cont_refl; reflexivity.
Qed.

Lemma is_nan_spec f : is_nan f = true <-> f = nan.
Proof.
  unfold is_nan. rewrite eqb_spec. split.
  - intros H. apply Prim2SF_inj. rewrite Prim2SF_nan.
    destruct (Prim2SF f) eqn:Hf; try reflexivity;
      rewrite SFeqb_refl in H; discriminate.
  - intros ->. reflexivity.
Qed.

(** ** Zeros *)

Lemma zero_add_zero u v : (u =? 0) = true -> (v =? 0) = true -> (u + v =? 0) = true.
Proof.
  rewrite !zero_spec. intros [su Hu] [sv Hv]. rewrite add_spec, Hu, Hv.
  destruct su, sv; simpl; eauto.
Qed.

Lemma zero_div u w : (u =? 0) = true -> (u / w =? 0) = true \/ u / w = nan.
Proof.
  rewrite !zero_spec. intros [su Hu].
  destruct (Prim2SF w) as [sw|sw| |sw mw ew] eqn:Hw.
  - right. apply Prim2SF_inj. rewrite div_spec, Hu, Hw. reflexivity.
  - left. rewrite div_spec, Hu, Hw. simpl. eauto.
  - right. apply Prim2SF_inj. rewrite div_spec, Hu, Hw. reflexivity.
  - left. rewrite div_spec, Hu, Hw. simpl. eauto.
Qed.

Lemma zero_mul_r u w : (u =? 0) = true -> (w * u =? 0) = true \/ w * u = nan.
Proof.
  rewrite !zero_spec. intros [su Hu].
  destruct (Prim2SF w) as [sw|sw| |sw mw ew] eqn:Hw.
  - left. rewrite mul_spec, Hu, Hw. simpl. eauto.
  - right. apply Prim2SF_inj. rewrite mul_spec, Hu, Hw. reflexivity.
  - right. apply Prim2SF_inj. rewrite mul_spec, Hu, Hw. reflexivity.
  - left. rewrite mul_spec, Hu, Hw. simpl. eauto.
Qed.

Lemma zero_mul_l u w : (u =? 0) = true -> (u * w =? 0) = true \/ u * w = nan.
Proof. rewrite mul_comm. apply zero_mul_r. Qed.

Lemma zero_div_zero u w : (u =? 0) = true -> (w =? 0) = true -> u / w = nan.
Proof.
  rewrite !zero_spec. intros [su Hu] [sw Hw].
  apply Prim2SF_inj. rewrite div_spec, Hu, Hw. reflexivity.
Qed.

Lemma zero_opp u : (u =? 0) = true -> (- u =? 0) = true.
Proof. rewrite !zero_spec. intros [su Hu]. rewrite opp_spec, Hu. simpl. eauto. Qed.

Lemma zero_cases u : (u =? 0) = true -> u = 0 \/ u = -0.
Proof.
  rewrite zero_spec. intros [[|] Hu]; [right | left]; apply Prim2SF_inj;
    rewrite Hu; reflexivity.
Qed.

Lemma zero_div_two u : (u =? 0) = true -> (u / 2 =? 0) = true.
Proof. intros H. destruct (zero_cases u H) as [-> | ->]; reflexivity. Qed.

(** ** The [swapped] relation through the operations of [Distance] *)

Lemma swapped_nan : swapped nan nan.
Proof. left. rewrite opp_nan. reflexivity. Qed.

Lemma swapped_zero u : (u =? 0) = true -> swapped u u.
Proof. intros H. right. split; [reflexivity | exact H]. Qed.

Lemma swapped_abs u v : swapped u v -> abs v = abs u.
Proof. intros [-> | [-> _]]; [apply abs_opp | reflexivity]. Qed.

Lemma swapped_sq u v : swapped u v -> v * v = u * u.
Proof. intros [-> | [-> _]]; [apply mul_opp_opp | reflexivity]. Qed.

Lemma swapped_div u v w : swapped u v -> swapped (u / w) (v / w).
Proof.
  intros [-> | [-> H]].
  - left. apply div_opp_l.
  - destruct (zero_div u w H) as [Hz | Hn].
    + apply swapped_zero. exact Hz.
    + rewrite Hn. apply swapped_nan.
Qed.

Lemma swapped_mul_l k u v : swapped u v -> swapped (k * u) (k * v).
Proof.
  intros [-> | [-> H]].
  - left. apply mul_opp_r.
  - destruct (zero_mul_r u k H) as [Hz | Hn].
    + apply swapped_zero. exact Hz.
    + rewrite Hn. apply swapped_nan.
Qed.

(** ** Comparisons *)

Lemma SFcompare_None x y : SFcompare x y = None -> x = S754_nan \/ y = S754_nan.
Proof.
  destruct x as [sx|sx| |sx mx ex], y as [sy|sy| |sy my ey]; simpl;
    intros H; auto; discriminate H.
Qed.

Lemma not_leb_ltb x y : x <> nan -> y <> nan -> (x <=? y) = false -> (y <? x) = true.
Proof.
  intros Hx Hy. rewrite leb_spec, ltb_spec. unfold SFleb, SFltb.
  rewrite (SFcompare_swap (Prim2SF x) (Prim2SF y)). intros H.
  destruct (SFcompare (Prim2SF x) (Prim2SF y)) as [[| |]|] eqn:E; simpl in *;
    try discriminate H; try reflexivity.
  exfalso. destruct (SFcompare_None _ _ E) as [H' | H'];
    [apply Hx | apply Hy]; apply Prim2SF_inj; rewrite H'; reflexivity.
Qed.

Lemma abs_cases d : abs d = d \/ abs d = - d.
Proof.
  destruct (Prim2SF d) as [[]|[]| |[] m e] eqn:Hd;
    [right | left | right | left | left | right | left];
    apply Prim2SF_inj; rewrite ?abs_spec, ?opp_spec, Hd; reflexivity.
Qed.

Lemma abs_nan d : abs d = nan -> d = nan.
Proof.
  intros H. apply Prim2SF_inj. apply (f_equal Prim2SF) in H.
  rewrite abs_spec, Prim2SF_nan in H. rewrite Prim2SF_nan.
  destruct (Prim2SF d); try discriminate H; reflexivity.
Qed.

Lemma ltb_180_opp d : (180 <? d) = true -> (180 <? - d) = false.
Proof.
  rewrite !ltb_spec, opp_spec.
  destruct (Prim2SF d) as [[]|[]| |[] m e]; try discriminate; reflexivity.
Qed.

Lemma not_nan_180 : (180 : float) <> nan.
Proof. intros E. apply (f_equal is_nan) in E. discriminate E. Qed.

(** A hue difference that is neither within [180] of 0 nor above [180] in
    either direction is NaN. *)
Lemma branch_nan d :
  (abs d <=? 180) = false -> (180 <? d) = false -> (180 <? - d) = false -> d = nan.
Proof.
  intros H1 H2 H3.
  destruct (Prim2SF d) eqn:Hd; [| | apply Prim2SF_inj; rewrite Hd; reflexivity |].
  all: exfalso; assert (Hn : d <> nan)
         by (intros E; rewrite E, Prim2SF_nan in Hd; discriminate Hd).
  all: assert (Ha : abs d <> nan) by (intros E; apply Hn, abs_nan, E).
  all: pose proof (not_leb_ltb _ _ Ha not_nan_180 H1) as H4.
  all: destruct (abs_cases d) as [E | E]; rewrite E in H4; congruence.
Qed.

(** ** Signs: sums of squares are never [-0] *)

(** The sign bit of [f] is clear, or [f] is NaN. *)
Definition nonneg (f : float) : Prop :=
  match Prim2SF f with
  | S754_zero s | S754_infinity s | S754_finite s _ _ => s = false
  | S754_nan => True
  end.

Lemma round_aux_nonneg m e lc :
  match binary_round_aux prec emax false m e lc with
  | S754_zero s | S754_infinity s | S754_finite s _ _ => s = false
  | S754_nan => True
  end.
Proof.
  unfold binary_round_aux.
  destruct (shr_fexp prec emax m e lc) as [mrs e'].
  destruct (shr_fexp prec emax _ e' loc_Exact) as [mrs'' e''].
  destruct (shr_m mrs''); try destruct (Z.leb _ _); reflexivity.
Qed.

Lemma mul_self_nonneg u : nonneg (u * u).
Proof.
  unfold nonneg. rewrite mul_spec.
  destruct (Prim2SF u) as [[]|[]| |[] m e]; try reflexivity;
    apply round_aux_nonneg.
Qed.

Lemma add_nonneg u v : nonneg u -> nonneg v -> nonneg (u + v).
Proof.
  unfold nonneg. rewrite add_spec.
  destruct (Prim2SF u) as [su|su| |su mu eu], (Prim2SF v) as [sv|sv| |sv mv ev];
    intros Hu Hv; subst; simpl; auto.
  unfold binary_normalize, binary_round.
  destruct (shl_align _ _ _) as [mz ez]. apply round_aux_nonneg.
Qed.

(** Adding a zero or its opposite to a sum of squares gives the same. *)
Lemma add_nonneg_zero_opp u z : nonneg u -> (z =? 0) = true -> u + z = u + (- z).
Proof.
  intros Hu Hz. destruct (zero_cases z Hz) as [-> | ->]; apply Prim2SF_inj;
    rewrite !add_spec; unfold nonneg in Hu;
    destruct (Prim2SF u) as [[]|[]| |[] m e]; try discriminate Hu; reflexivity.
Qed.

(** The final statement of [Distance], with the three differences of one
    order of the inputs and those of the other. *)
Lemma final_swapped rT dL dL' dC dC' dH dH' :
  swapped dL dL' -> swapped dC dC' -> swapped dH dH' ->
  sqrt ((((dL * dL) + (dC * dC)) + (dH * dH)) + ((rT * dC) * dH)) =
  sqrt ((((dL' * dL') + (dC' * dC')) + (dH' * dH')) + ((rT * dC') * dH')).
Proof.
  intros HL HC HH.
  rewrite (swapped_sq _ _ HL), (swapped_sq _ _ HC), (swapped_sq _ _ HH).
  f_equal.
  set (S := ((dL * dL) + (dC * dC)) + (dH * dH)).
  assert (HS : nonneg S) by
    (apply add_nonneg; [apply add_nonneg |]; apply mul_self_nonneg).
  destruct HC as [-> | [-> HC]], HH as [-> | [-> HH]].
  - rewrite (mul_opp_r rT dC), mul_opp_opp. reflexivity.
  - rewrite (mul_opp_r rT dC), mul_opp_l.
    destruct (zero_mul_r dH (rT * dC) HH) as [Hz | Hn].
    + apply add_nonneg_zero_opp; assumption.
    + rewrite Hn, opp_nan. reflexivity.
  - rewrite mul_opp_r.
    destruct (zero_mul_r dC rT HC) as [Hz | Hn].
    + destruct (zero_mul_l _ dH Hz) as [Hz' | Hn'].
      * apply add_nonneg_zero_opp; assumption.
      * rewrite Hn', opp_nan. reflexivity.
    + rewrite Hn, mul_nan_l, opp_nan. reflexivity.
  - reflexivity.
Qed.

End FloatFacts.

Import FloatFacts.

(** ** Lower bounds through rounding

    Rounding is monotone: a correctly rounded positive result is never
    below a representable number that lies below the exact value.  The
    lemmas below prove the instances of this the program needs, for
    multiplication, addition and division of positive numbers, through
    the exact rational value [m 2^e] of a finite number. *)

Module Bounds.

Local Open Scope Z_scope.

Lemma digits2_pos_size p : digits2_pos p = Pos.size p.
Proof. induction p; simpl; rewrite ?IHp; reflexivity. Qed.

Lemma Zdigits2_log2 m : 0 < m -> Zdigits2 m = Z.log2 m + 1.
Proof.
  intros Hm. destruct m as [|p|p]; try lia. simpl. rewrite digits2_pos_size.
  destruct p; simpl; lia.
Qed.

Lemma emin_eq : emin = -1074.
Proof. reflexivity. Qed.

Lemma fexp_eq e : fexp prec emax e = Z.max (e - 53) (-1074).
Proof. reflexivity. Qed.

Lemma shr_1_m mrs : 0 <= shr_m mrs -> shr_m (shr_1 mrs) = shr_m mrs / 2 /\ 0 <= shr_m (shr_1 mrs).
Proof.
  destruct mrs as [m r s]. simpl. intros Hm. rewrite <- Z.div2_div.
  destruct m as [|[p|p|]|p]; simpl; try lia; split; reflexivity || lia.
Qed.

Lemma iter_shr p mrs : 0 <= shr_m mrs ->
  shr_m (iter_pos shr_1 p mrs) = shr_m mrs / 2 ^ Zpos p /\ 0 <= shr_m (iter_pos shr_1 p mrs).
Proof.
  revert mrs. induction p as [p IH|p IH|]; intros mrs Hm; cbn [iter_pos].
  - destruct (shr_1_m mrs Hm) as [E1 H1].
    destruct (IH _ H1) as [E2 H2]. destruct (IH _ H2) as [E3 H3].
    split; [| exact H3]. rewrite E3, E2, E1, !Z.div_div by lia.
    f_equal. rewrite (Pos2Z.inj_xI p).
    replace (2 * Zpos p + 1) with (Zpos p + Zpos p + 1) by lia.
    rewrite !Z.pow_add_r by lia. ring.
  - destruct (IH _ Hm) as [E2 H2]. destruct (IH _ H2) as [E3 H3].
    split; [| exact H3]. rewrite E3, E2, !Z.div_div by lia.
    f_equal. rewrite (Pos2Z.inj_xO p).
    replace (2 * Zpos p) with (Zpos p + Zpos p) by lia.
    rewrite !Z.pow_add_r by lia. ring.
  - destruct (shr_1_m mrs Hm) as [E1 H1]. split; [rewrite E1 | exact H1]. reflexivity.
Qed.

Lemma shr_record_of_loc_m m l : shr_m (shr_record_of_loc m l) = m.
Proof. destruct l as [|[]]; reflexivity. Qed.

Lemma shr_fexp_spec m e l : 0 <= m ->
  let '(mrs', e') := shr_fexp prec emax m e l in
  e' = Z.max e (fexp prec emax (Zdigits2 m + e)) /\ shr_m mrs' = m / 2 ^ (e' - e).
Proof.
  intros Hm. unfold shr_fexp, shr.
  destruct (fexp prec emax (Zdigits2 m + e) - e) as [|k|k] eqn:Hk.
  - split; [lia |]. rewrite shr_record_of_loc_m, Z.sub_diag, Z.pow_0_r, Z.div_1_r. reflexivity.
  - split; [lia |]. replace (e + Zpos k - e) with (Zpos k) by lia.
    pose proof (iter_shr k (shr_record_of_loc m l)) as H.
    rewrite shr_record_of_loc_m in H. apply H, Hm.
  - split; [lia |]. rewrite shr_record_of_loc_m, Z.sub_diag, Z.pow_0_r, Z.div_1_r. reflexivity.
Qed.

(** One rounding shift of a positive mantissa whose value is at least
    [2^emin] keeps it positive, and keeps the position of its leading bit. *)
Lemma shr_fexp_pos m e l : 0 < m -> -1074 < Z.log2 m + 1 + e ->
  let '(mrs', e') := shr_fexp prec emax m e l in
  e <= e' /\ shr_m mrs' = m / 2 ^ (e' - e) /\ 0 < shr_m mrs' /\
  Z.log2 (shr_m mrs') + e' = Z.log2 m + e.
Proof.
  intros Hm Hd. pose proof (shr_fexp_spec m e l ltac:(lia)) as H.
  destruct (shr_fexp prec emax m e l) as [mrs' e'].
  destruct H as [He' Hm']. rewrite Zdigits2_log2, fexp_eq in He' by lia.
  pose proof (Z.log2_nonneg m).
  assert (Hk : 0 <= e' - e <= Z.log2 m) by lia.
  rewrite <- Z.shiftr_div_pow2 in Hm' by lia.
  pose proof (Z.log2_shiftr m (e' - e) Hm) as HL.
  assert (Hpos : 0 < Z.shiftr m (e' - e)).
  { rewrite Z.shiftr_div_pow2 by lia. apply Z.div_str_pos. split.
    - apply Z.pow_pos_nonneg; lia.
    - apply Z.le_trans with (2 ^ Z.log2 m); [apply Z.pow_le_mono_r; lia |].
      apply Z.log2_spec, Hm. }
  rewrite Z.shiftr_div_pow2 in Hm', HL, Hpos by lia.
  split; [lia |]. split; [exact Hm' |]. split; [lia |]. rewrite Hm', HL. lia.
Qed.

Lemma round_nearest_even_ge mx lx : mx <= round_nearest_even mx lx.
Proof. destruct lx as [|[]]; simpl; try lia. destruct (Z.even mx); lia. Qed.

(** Rounding a positive value of at least [2^emin] gives [+inf] or a
    positive finite number whose mantissa is at least the truncation of
    the exact mantissa at the result's exponent. *)
Lemma round_aux_lower m e lc : 0 < m -> -1074 < Z.log2 m + 1 + e ->
  match binary_round_aux prec emax false m e lc with
  | S754_infinity s => s = false
  | S754_finite s m'' E => s = false /\ e <= E /\ m / 2 ^ (E - e) <= Zpos m''
  | _ => False
  end.
Proof.
  intros Hm Hd. unfold binary_round_aux.
  pose proof (shr_fexp_pos m e lc Hm Hd) as H1.
  destruct (shr_fexp prec emax m e lc) as [mrs1 e1].
  destruct H1 as (He1 & Hm1 & Hp1 & Hl1).
  set (m1 := round_nearest_even (shr_m mrs1) (loc_of_shr_record mrs1)).
  assert (Hr : shr_m mrs1 <= m1) by apply round_nearest_even_ge.
  assert (Hl : Z.log2 (shr_m mrs1) <= Z.log2 m1) by (apply Z.log2_le_mono; lia).
  pose proof (shr_fexp_pos m1 e1 loc_Exact ltac:(lia) ltac:(lia)) as H2.
  destruct (shr_fexp prec emax m1 e1 loc_Exact) as [mrs2 E].
  destruct H2 as (HE & Hm2 & Hp2 & _).
  destruct (shr_m mrs2) as [|m''|m''] eqn:Em; try lia.
  destruct (E <=? emax - prec); [| reflexivity].
  split; [reflexivity |]. split; [lia |].
  rewrite Hm2.
  replace (E - e) with ((e1 - e) + (E - e1)) by lia.
  rewrite Z.pow_add_r, <- Z.div_div by lia.
  rewrite <- Hm1. apply Z.div_le_mono; [apply Z.pow_pos_nonneg |]; lia.
Qed.

(** ** Values of positive finite numbers *)

Definition val (m e : Z) : Q := (inject_Z m * inject_Z 2 ^ e)%Q.

Lemma two_pow_pos e : (0 < inject_Z 2 ^ e)%Q.
Proof. apply Qpower_0_lt. reflexivity. Qed.

Lemma two_neq_0 : ~ (inject_Z 2 == 0)%Q.
Proof. intros H. inversion H. Qed.

Lemma val_shift m k d : 0 <= d -> (val m (k + d) == val (m * 2 ^ d) k)%Q.
Proof.
  intros Hd. unfold val. rewrite (Qpower_plus _ _ _ two_neq_0).
  rewrite inject_Z_mult, (Zpower_Qpower 2 d Hd). ring.
Qed.

Lemma val_le_same m1 m2 k : (val m1 k <= val m2 k)%Q <-> m1 <= m2.
Proof. unfold val. rewrite Qmult_le_r by apply two_pow_pos. rewrite <- Zle_Qle. reflexivity. Qed.

Lemma val_lt_same m1 m2 k : (val m1 k < val m2 k)%Q <-> m1 < m2.
Proof. unfold val. rewrite Qmult_lt_r by apply two_pow_pos. rewrite <- Zlt_Qlt. reflexivity. Qed.

Lemma val_le_l a b j k : k <= j -> (val a j <= val b k)%Q <-> a * 2 ^ (j - k) <= b.
Proof.
  intros H. replace j with (k + (j - k)) at 1 by ring.
  rewrite val_shift by lia. apply val_le_same.
Qed.

Lemma val_le_r a b j k : j <= k -> (val a j <= val b k)%Q <-> a <= b * 2 ^ (k - j).
Proof.
  intros H. replace k with (j + (k - j)) at 1 by ring.
  rewrite val_shift by lia. apply val_le_same.
Qed.

Lemma val_lt_l a b j k : k <= j -> (val a j < val b k)%Q <-> a * 2 ^ (j - k) < b.
Proof.
  intros H. replace j with (k + (j - k)) at 1 by ring.
  rewrite val_shift by lia. apply val_lt_same.
Qed.

Lemma val_lt_r a b j k : j <= k -> (val a j < val b k)%Q <-> a < b * 2 ^ (k - j).
Proof.
  intros H. replace k with (j + (k - j)) at 1 by ring.
  rewrite val_shift by lia. apply val_lt_same.
Qed.

Lemma val_mult m1 e1 m2 e2 : (val (m1 * m2) (e1 + e2) == val m1 e1 * val m2 e2)%Q.
Proof. unfold val. rewrite (Qpower_plus _ _ _ two_neq_0), inject_Z_mult. ring. Qed.

Lemma val_plus m1 m2 e : (val (m1 + m2) e == val m1 e + val m2 e)%Q.
Proof. unfold val. rewrite inject_Z_plus. ring. Qed.

Lemma val_nonneg m e : 0 <= m -> (0 <= val m e)%Q.
Proof.
  intros H. unfold val. apply Qmult_le_0_compat.
  - change 0%Q with (inject_Z 0). rewrite <- Zle_Qle. exact H.
  - apply Qlt_le_weak, two_pow_pos.
Qed.

Lemma val_pos m e : 0 < m -> (0 < val m e)%Q.
Proof.
  intros H. unfold val. apply Qmult_lt_0_compat.
  - change 0%Q with (inject_Z 0). rewrite <- Zlt_Qlt. exact H.
  - apply two_pow_pos.
Qed.

(** ** Valid numbers *)

Lemma valid_facts s m e : valid_binary (S754_finite s m e) = true ->
  Zpos m < 2 ^ 53 /\ -1074 <= e <= 971 /\ (-1074 < e -> 2 ^ 52 <= Zpos m).
Proof.
  unfold valid_binary, bounded, canonical_mantissa. intros H.
  apply andb_prop in H as [H1 H2]. apply Z.eqb_eq in H1. apply Z.leb_le in H2.
  change (Zpos (digits2_pos m)) with (Zdigits2 (Zpos m)) in H1.
  rewrite Zdigits2_log2, fexp_eq in H1 by lia.
  change (emax - prec) with 971 in H2.
  pose proof (Z.log2_spec (Zpos m) ltac:(lia)) as [Hl Hu].
  pose proof (Z.log2_nonneg (Zpos m)).
  split; [| split; [lia |]].
  - apply Z.lt_le_trans with (1 := Hu). apply Z.pow_le_mono_r; lia.
  - intros He. apply Z.le_trans with (2 := Hl). apply Z.pow_le_mono_r; lia.
Qed.

Lemma val_lt_exp m1 e1 m2 e2 : m1 < 2 ^ 53 -> (-1074 < e2 -> 2 ^ 52 <= m2) ->
  -1074 <= e1 -> e1 < e2 -> (val m1 e1 < val m2 e2)%Q.
Proof.
  intros H1 H2 H3 H4. apply val_lt_r; [lia |].
  assert (2 ^ 1 <= 2 ^ (e2 - e1)) by (apply Z.pow_le_mono_r; lia).
  specialize (H2 ltac:(lia)). change (2 ^ 53) with (2 ^ 52 * 2 ^ 1) in H1. nia.
Qed.

Lemma SFleb_fin_pos m1 e1 m2 e2 :
  valid_binary (S754_finite false m1 e1) = true ->
  valid_binary (S754_finite false m2 e2) = true ->
  SFleb (S754_finite false m1 e1) (S754_finite false m2 e2) = true <->
  (val (Zpos m1) e1 <= val (Zpos m2) e2)%Q.
Proof.
  intros V1 V2. apply valid_facts in V1 as (A1 & B1 & C1), V2 as (A2 & B2 & C2).
  unfold SFleb, SFcompare.
  destruct (Z.compare_spec e1 e2) as [<-|Hlt|Hgt].
  - change (Pos.compare_cont Eq m1 m2) with (Pos.compare m1 m2).
    rewrite val_le_same. destruct (Pos.compare_spec m1 m2); split; intros; lia || discriminate.
  - split; [intros _ | reflexivity]. apply Qlt_le_weak, val_lt_exp; lia.
  - split; [discriminate |]. intros H. exfalso. apply (Qlt_not_le _ _ (val_lt_exp (Zpos m2) e2 (Zpos m1) e1 ltac:(lia) C1 ltac:(lia) Hgt)), H.
Qed.

Lemma SFltb_fin_pos m1 e1 m2 e2 :
  valid_binary (S754_finite false m1 e1) = true ->
  valid_binary (S754_finite false m2 e2) = true ->
  SFltb (S754_finite false m1 e1) (S754_finite false m2 e2) = true <->
  (val (Zpos m1) e1 < val (Zpos m2) e2)%Q.
Proof.
  intros V1 V2. apply valid_facts in V1 as (A1 & B1 & C1), V2 as (A2 & B2 & C2).
  unfold SFltb, SFcompare.
  destruct (Z.compare_spec e1 e2) as [<-|Hlt|Hgt].
  - change (Pos.compare_cont Eq m1 m2) with (Pos.compare m1 m2).
    rewrite val_lt_same. destruct (Pos.compare_spec m1 m2); split; intros; lia || discriminate.
  - split; [intros _ | reflexivity]. apply val_lt_exp; lia.
  - split; [discriminate |]. intros H. exfalso.
    apply (Qlt_not_le _ _ H), Qlt_le_weak, (val_lt_exp (Zpos m2) e2 (Zpos m1) e1 ltac:(lia) C1 ltac:(lia) Hgt).
Qed.

Lemma val_one_le a b : a <= b -> (val 1 a <= val 1 b)%Q.
Proof. intros H. apply val_le_r; [exact H |]. pose proof (Z.pow_pos_nonneg 2 (b - a)). lia. Qed.

(** Rounding a positive exact value [X], known to lie in
    [[m 2^e, (m+1) 2^e)], never goes below a positive number [kL 2^jL]
    that is at most [X]. *)
Lemma round_aux_ge m e lc X kL jL :
  0 < m -> 0 < kL < 2 ^ 53 -> -1074 <= jL ->
  (val m e <= X)%Q -> (X < val (m + 1) e)%Q -> (val kL jL <= X)%Q ->
  valid_binary (binary_round_aux prec emax false m e lc) = true ->
  binary_round_aux prec emax false m e lc = S754_infinity false \/
  exists m'' E, binary_round_aux prec emax false m e lc = S754_finite false m'' E /\
    (val kL jL <= val (Zpos m'') E)%Q.
Proof.
  intros Hm HkL HjL HX1 HX2 HL V.
  pose proof (Z.log2_spec m Hm) as [Hl Hu]. pose proof (Z.log2_nonneg m).
  assert (Hd : -1074 < Z.log2 m + 1 + e).
  { destruct (Z.lt_ge_cases (-1074) (Z.log2 m + 1 + e)) as [|Hc]; [assumption | exfalso].
    apply (Qlt_irrefl X). apply Qlt_le_trans with (1 := HX2).
    apply Qle_trans with (val 1 (Z.log2 m + 1 + e)).
    - apply val_le_r; [lia |]. rewrite Z.mul_1_l.
      replace (Z.log2 m + 1 + e - e) with (Z.log2 m + 1) by ring. lia.
    - apply Qle_trans with (val 1 (-1074)); [apply val_one_le, Hc |].
      apply Qle_trans with (2 := HL). apply val_le_r; [lia |].
      pose proof (Z.pow_pos_nonneg 2 (jL - -1074)). nia. }
  pose proof (round_aux_lower m e lc Hm Hd) as HR.
  destruct (binary_round_aux prec emax false m e lc) as [s|s| |s m'' E]; try contradiction.
  - left. subst s. reflexivity.
  - destruct HR as (-> & HE & Hm''). right. exists m'', E. split; [reflexivity |].
    apply valid_facts in V as (V1 & V2 & V3).
    destruct (Z.le_gt_cases E jL) as [Hj|Hj].
    + apply val_le_l; [exact Hj |]. apply Z.le_trans with (2 := Hm'').
      apply Z.div_le_lower_bound; [apply Z.pow_pos_nonneg; lia |].
      assert (Hlt : (val kL jL < val (m + 1) e)%Q) by (apply Qle_lt_trans with X; assumption).
      apply val_lt_l in Hlt; [| lia].
      replace (jL - e) with ((E - e) + (jL - E)) in Hlt by ring.
      rewrite Z.pow_add_r in Hlt by lia. nia.
    + apply Qlt_le_weak, val_lt_exp; lia.
Qed.

(** [shl_align] does not change the value. *)
Lemma iter_xO m d : Zpos (Pos.iter xO m d) = Zpos m * 2 ^ Zpos d.
Proof.
  induction d as [|d IH] using Pos.peano_ind.
  - simpl. lia.
  - rewrite Pos.iter_succ, Pos2Z.inj_succ, Z.pow_succ_r by lia.
    change (Zpos (xO (Pos.iter xO m d))) with (2 * Zpos (Pos.iter xO m d)).
    rewrite IH. ring.
Qed.

Lemma shl_align_val mx ex ex' :
  let '(mz, ez) := shl_align mx ex ex' in (val (Zpos mz) ez == val (Zpos mx) ex)%Q.
Proof.
  unfold shl_align. destruct (ex' - ex) as [|d|d] eqn:Hd; try reflexivity.
  rewrite iter_xO. replace ex with (ex' + Zpos d) by lia.
  rewrite val_shift by lia. reflexivity.
Qed.

Lemma shl_align_fst mx ex ex' : ex' <= ex ->
  Zpos (fst (shl_align mx ex ex')) = Zpos mx * 2 ^ (ex - ex').
Proof.
  intros H. unfold shl_align. destruct (ex' - ex) as [|d|d] eqn:Hd; simpl fst.
  - replace (ex - ex') with 0 by lia. ring.
  - lia.
  - rewrite iter_xO. f_equal. f_equal. lia.
Qed.

Lemma binary_normalize_pos p e : exists mz ez,
  binary_normalize prec emax (Zpos p) e false = binary_round_aux prec emax false (Zpos mz) ez loc_Exact /\
  (val (Zpos mz) ez == val (Zpos p) e)%Q.
Proof.
  unfold binary_normalize, binary_round.
  pose proof (shl_align_val p e (fexp prec emax (Zpos (digits2_pos p) + e))) as H.
  destruct (shl_align p e _) as [mz ez]. exists mz, ez. split; [reflexivity | exact H].
Qed.

(** The division core: quotient [q] at exponent [e'] with
    [q 2^e' <= mx 2^ex / (mc 2^ec) < (q+1) 2^e']. *)
Lemma div_core_spec mx ex mc ec :
  let '(q, e', _) := SFdiv_core_binary prec emax (Zpos mx) ex (Zpos mc) ec in
  0 <= q /\
  (val q e' * val (Zpos mc) ec <= val (Zpos mx) ex)%Q /\
  (val (Zpos mx) ex < val (q + 1) e' * val (Zpos mc) ec)%Q /\
  (-1074 < e' -> 0 < q).
Proof.
  unfold SFdiv_core_binary.
  set (d1 := Zdigits2 (Zpos mx)). set (d2 := Zdigits2 (Zpos mc)).
  set (e' := Z.min (fexp prec emax (d1 + ex - (d2 + ec))) (ex - ec)).
  assert (Hs : 0 <= ex - ec - e') by (unfold e'; lia).
  set (m' := match ex - ec - e' with Zpos _ => Z.shiftl (Zpos mx) (ex - ec - e') | Z0 => Zpos mx | Zneg _ => 0 end).
  assert (Hm' : m' = Zpos mx * 2 ^ (ex - ec - e')).
  { unfold m'. destruct (ex - ec - e') as [|s|s] eqn:E.
    - rewrite Z.pow_0_r. ring.
    - rewrite Z.shiftl_mul_pow2 by lia. reflexivity.
    - lia. }
  pose proof (Z_div_mod m' (Zpos mc) ltac:(lia)) as Hdm.
  destruct (Z.div_eucl m' (Zpos mc)) as [q r]. destruct Hdm as [Hqr Hr].
  assert (Hmx : 0 <= m') by (rewrite Hm'; pose proof (Z.pow_pos_nonneg 2 (ex - ec - e')); nia).
  assert (Hq : 0 <= q) by nia.
  assert (Hex : (val (Zpos mx) ex == val m' (e' + ec))%Q).
  { rewrite Hm', <- val_shift by exact Hs. replace (e' + ec + (ex - ec - e')) with ex by ring. reflexivity. }
  split; [exact Hq |]. split; [| split].
  - rewrite Hex, <- val_mult. apply val_le_same. nia.
  - rewrite Hex, <- val_mult. apply val_lt_same. nia.
  - intros He'.
    assert (Hd1 : d1 = Z.log2 (Zpos mx) + 1) by (apply Zdigits2_log2; lia).
    assert (Hd2 : d2 = Z.log2 (Zpos mc) + 1) by (apply Zdigits2_log2; lia).
    assert (He'def : e' = Z.min (Z.max (d1 + ex - (d2 + ec) - 53) (-1074)) (ex - ec)) by reflexivity.
    pose proof (Z.log2_spec (Zpos mx) ltac:(lia)) as [Hl1 _].
    pose proof (Z.log2_spec (Zpos mc) ltac:(lia)) as [_ Hu2].
    pose proof (Z.log2_nonneg (Zpos mx)). pose proof (Z.log2_nonneg (Zpos mc)).
    assert (Hs' : Z.log2 (Zpos mc) + 1 <= Z.log2 (Zpos mx) + (ex - ec - e') - 52).
    { clearbody e' d1 d2. lia. }
    assert (Hbig : Zpos mc < m').
    { rewrite Hm'. apply Z.lt_le_trans with (1 := Hu2).
      apply Z.le_trans with (2 ^ (Z.log2 (Zpos mx) + (ex - ec - e'))).
      - apply Z.pow_le_mono_r; lia.
      - rewrite Z.pow_add_r by lia. apply Z.mul_le_mono_nonneg_r; [apply Z.pow_nonneg|]; lia. }
    nia.
Qed.

(** ** The same bounds on primitive floats *)

(** A positive finite number and its exact value. *)
Definition is_pos (x : float) : bool :=
  match Prim2SF x with S754_finite false _ _ => true | _ => false end.

Definition fval (x : float) : Q :=
  match Prim2SF x with S754_finite false m e => val (Zpos m) e | _ => 0%Q end.

Lemma fval_eq x m e : Prim2SF x = S754_finite false m e -> fval x = val (Zpos m) e.
Proof. intros H. unfold fval. rewrite H. reflexivity. Qed.

Lemma is_pos_facts L : is_pos L = true -> exists kL jL,
  Prim2SF L = S754_finite false kL jL /\ fval L = val (Zpos kL) jL /\
  Zpos kL < 2 ^ 53 /\ -1074 <= jL.
Proof.
  intros H. pose proof (Prim2SF_valid L) as V. unfold is_pos, fval in *.
  destruct (Prim2SF L) as [s|s| |[] kL jL]; try discriminate H.
  apply valid_facts in V as (V1 & V2 & _). exists kL, jL. repeat split; lia.
Qed.

(** What [L <= x] says of [x] when [L] is positive. *)
Lemma ge_cases L x : is_pos L = true -> (L <=? x)%float = true ->
  Prim2SF x = S754_infinity false \/
  exists m e, Prim2SF x = S754_finite false m e /\ (fval L <= val (Zpos m) e)%Q.
Proof.
  intros HL H. pose proof (Prim2SF_valid L) as VL. pose proof (Prim2SF_valid x) as Vx.
  rewrite leb_spec in H. unfold is_pos, fval in *.
  destruct (Prim2SF L) as [sL|sL| |[] kL jL]; try discriminate HL.
  destruct (Prim2SF x) as [s|[]| |[] m e]; try discriminate H.
  - left. reflexivity.
  - right. exists m, e. split; [reflexivity |]. apply SFleb_fin_pos; assumption.
Qed.

Lemma ge_of L z : is_pos L = true ->
  (Prim2SF z = S754_infinity false \/
   exists m e, Prim2SF z = S754_finite false m e /\ (fval L <= val (Zpos m) e)%Q) ->
  (L <=? z)%float = true.
Proof.
  intros HL H. pose proof (Prim2SF_valid L) as VL. pose proof (Prim2SF_valid z) as Vz.
  rewrite leb_spec. unfold is_pos, fval in *.
  destruct (Prim2SF L) as [sL|sL| |[] kL jL]; try discriminate HL.
  destruct H as [E | (m & e & E & H)]; rewrite E in *; [reflexivity |].
  apply (proj2 (SFleb_fin_pos _ _ _ _ VL Vz)), H.
Qed.

Lemma round_ge L z m e lc X : is_pos L = true -> 0 < m ->
  Prim2SF z = binary_round_aux prec emax false m e lc ->
  (val m e <= X)%Q -> (X < val (m + 1) e)%Q -> (fval L <= X)%Q ->
  (L <=? z)%float = true.
Proof.
  intros HL Hm Hz H1 H2 H3.
  destruct (is_pos_facts L HL) as (kL & jL & _ & EL & HkL & HjL). rewrite EL in H3.
  pose proof (Prim2SF_valid z) as V. rewrite Hz in V.
  apply ge_of; [exact HL |]. rewrite Hz, EL.
  apply (round_aux_ge m e lc X (Zpos kL) jL); auto. lia.
Qed.

(** Multiplication by a positive constant. *)
Lemma mul_ge Lp c L p : is_pos Lp = true -> is_pos c = true -> is_pos L = true ->
  (fval L <= fval Lp * fval c)%Q -> (Lp <=? p)%float = true -> (L <=? p * c)%float = true.
Proof.
  intros HLp Hc HL Hb Hp.
  destruct (is_pos_facts c Hc) as (mc & ec & Ec & Fc & _). rewrite Fc in Hb.
  destruct (ge_cases Lp p HLp Hp) as [Ep | (mp & ep & Ep & Hv)].
  - apply ge_of; [exact HL |]. left. rewrite mul_spec, Ep, Ec. reflexivity.
  - apply (round_ge L (p * c) (Zpos (mp * mc)) (ep + ec) loc_Exact (val (Zpos (mp * mc)) (ep + ec))).
    + exact HL.
    + lia.
    + rewrite mul_spec, Ep, Ec. reflexivity.
    + apply Qle_refl.
    + apply val_lt_same. lia.
    + apply Qle_trans with (1 := Hb). rewrite Pos2Z.inj_mul, val_mult.
      apply Qmult_le_compat_r; [exact Hv | apply val_nonneg; lia].
Qed.

(** Division by a positive constant. *)
Lemma div_ge Lx c L x : is_pos Lx = true -> is_pos c = true -> is_pos L = true ->
  (fval L * fval c <= fval Lx)%Q -> (Lx <=? x)%float = true -> (L <=? x / c)%float = true.
Proof.
  intros HLx Hc HL Hb Hx.
  destruct (is_pos_facts c Hc) as (mc & ec & Ec & Fc & _). rewrite Fc in Hb.
  destruct (is_pos_facts L HL) as (kL & jL & _ & FL & _ & HjL).
  destruct (ge_cases Lx x HLx Hx) as [Ex | (mx & ex & Ex & Hv)].
  - apply ge_of; [exact HL |]. left. rewrite div_spec, Ex, Ec. reflexivity.
  - pose proof (div_core_spec mx ex mc ec) as Hd.
    assert (Hz : Prim2SF (x / c) =
      let '(mz, ez, lz) := SFdiv_core_binary prec emax (Zpos mx) ex (Zpos mc) ec in
      binary_round_aux prec emax false mz ez lz) by (rewrite div_spec, Ex, Ec; reflexivity).
    destruct (SFdiv_core_binary prec emax (Zpos mx) ex (Zpos mc) ec) as [[q e'] lz].
    destruct Hd as (Hq & H1 & H2 & H3).
    assert (Hc0 : (0 < val (Zpos mc) ec)%Q) by (apply val_pos; lia).
    set (X := (val (Zpos mx) ex / val (Zpos mc) ec)%Q).
    assert (HX : (X * val (Zpos mc) ec == val (Zpos mx) ex)%Q)
      by (unfold X; field; apply Qnot_eq_sym, Qlt_not_eq, Hc0).
    assert (HLX : (fval L <= X)%Q).
    { apply (Qmult_le_r _ _ _ Hc0). rewrite HX. apply Qle_trans with (1 := Hb), Hv. }
    assert (HX2 : (X < val (q + 1) e')%Q).
    { apply (Qmult_lt_r _ _ _ Hc0). rewrite HX. exact H2. }
    assert (Hq0 : 0 < q).
    { destruct (Z.eq_dec q 0) as [Eq|]; [| lia]. apply H3.
      destruct (Z.lt_ge_cases (-1074) e') as [|He]; [assumption | exfalso]. subst q.
      apply (Qlt_irrefl X). apply Qlt_le_trans with (1 := HX2).
      apply Qle_trans with (2 := HLX). rewrite FL.
      apply Qle_trans with (val 1 (-1074)); [apply val_one_le, He |].
      apply val_le_r; [lia |]. pose proof (Z.pow_pos_nonneg 2 (jL - -1074)). nia. }
    apply (round_ge L (x / c) q e' lz X HL Hq0 Hz).
    + apply (Qmult_le_r _ _ _ Hc0). rewrite HX. exact H1.
    + exact HX2.
    + exact HLX.
Qed.

(** Which numbers are at least [0]. *)
Lemma nonneg_cases b : (0 <=? b)%float = true ->
  (exists s, Prim2SF b = S754_zero s) \/ Prim2SF b = S754_infinity false \/
  exists m e, Prim2SF b = S754_finite false m e.
Proof.
  rewrite leb_spec. change (Prim2SF 0%float) with (S754_zero false).
  destruct (Prim2SF b) as [s|[]| |[] m e]; try discriminate; eauto.
Qed.

(** Adding a number at least [0] to a number at least [La]. *)
Lemma add_ge_l La a b : is_pos La = true ->
  (La <=? a)%float = true -> (0 <=? b)%float = true -> (La <=? a + b)%float = true.
Proof.
  intros HL Ha Hb.
  destruct (ge_cases La a HL Ha) as [Ea | (ma & ea & Ea & Hv)];
    destruct (nonneg_cases b Hb) as [[s Eb] | [Eb | (mb & eb & Eb)]];
    try (apply ge_of; [exact HL |]; left; rewrite add_spec, Ea, Eb; reflexivity).
  - apply ge_of; [exact HL |]. right. exists ma, ea. split; [| exact Hv].
    rewrite add_spec, Ea, Eb. reflexivity.
  - set (ez := Z.min ea eb).
    set (pa := fst (shl_align ma ea ez)). set (pb := fst (shl_align mb eb ez)).
    assert (Hs : Prim2SF (a + b) = binary_normalize prec emax (Zpos (pa + pb)) ez false)
      by (rewrite add_spec, Ea, Eb; reflexivity).
    destruct (binary_normalize_pos (pa + pb) ez) as (mz & ez' & En & Hv').
    rewrite En in Hs.
    apply (round_ge La (a + b) (Zpos mz) ez' loc_Exact (val (Zpos mz) ez') HL ltac:(lia) Hs).
    + apply Qle_refl.
    + apply val_lt_same. lia.
    + rewrite Hv', Pos2Z.inj_add, val_plus.
      assert (Ha' : (val (Zpos pa) ez == val (Zpos ma) ea)%Q).
      { unfold pa. rewrite shl_align_fst by lia. rewrite <- val_shift by lia.
        replace (ez + (ea - ez)) with ea by ring. reflexivity. }
      rewrite Ha'. rewrite <- (Qplus_0_r (fval La)).
      apply Qplus_le_compat; [exact Hv | apply val_nonneg; lia].
Qed.

Lemma add_ge_r Lb a b : is_pos Lb = true ->
  (0 <=? a)%float = true -> (Lb <=? b)%float = true -> (Lb <=? a + b)%float = true.
Proof. intros HL Ha Hb. rewrite add_comm. apply add_ge_l; assumption. Qed.

(** A number at least a positive [L] is at least [0], and is above
    every positive number below [L]. *)
Lemma ge_nonneg L x : is_pos L = true -> (L <=? x)%float = true -> (0 <=? x)%float = true.
Proof.
  intros HL Hx. rewrite leb_spec. change (Prim2SF 0%float) with (S754_zero false).
  destruct (ge_cases L x HL Hx) as [-> | (m & e & -> & _)]; reflexivity.
Qed.

Lemma ge_weaken L' L x : is_pos L' = true -> is_pos L = true -> (fval L' <= fval L)%Q ->
  (L <=? x)%float = true -> (L' <=? x)%float = true.
Proof.
  intros HL' HL Hle Hx. apply ge_of; [exact HL' |].
  destruct (ge_cases L x HL Hx) as [E | (m & e & E & Hv)]; [left; exact E |].
  right. exists m, e. split; [exact E | apply Qle_trans with (1 := Hle), Hv].
Qed.

Lemma gt_of_ge T L x : is_pos T = true -> is_pos L = true -> (fval T < fval L)%Q ->
  (L <=? x)%float = true -> (T <? x)%float = true.
Proof.
  intros HT HL Hlt Hx. pose proof (Prim2SF_valid T) as VT. pose proof (Prim2SF_valid x) as Vx.
  rewrite ltb_spec.
  destruct (ge_cases L x HL Hx) as [E | (m & e & E & Hv)]; rewrite E in *.
  - unfold is_pos in HT. destruct (Prim2SF T) as [| | |[] ? ?]; try discriminate HT. reflexivity.
  - unfold is_pos, fval in HT, Hlt. destruct (Prim2SF T) as [| | |[] mT eT]; try discriminate HT.
    apply SFltb_fin_pos; [exact VT | exact Vx |]. apply Qlt_le_trans with (1 := Hlt), Hv.
Qed.

Lemma zero_mul_pos c : is_pos c = true -> (0 * c)%float = 0%float.
Proof.
  intros Hc. apply Prim2SF_inj. rewrite mul_spec. change (Prim2SF 0%float) with (S754_zero false).
  unfold is_pos in Hc. destruct (Prim2SF c) as [| | |[] ? ?]; try discriminate Hc. reflexivity.
Qed.

(** ** Numbers at least [0] *)

(** Rounding a non-negative mantissa gives [+0], [+inf] or a positive
    finite number, never a NaN. *)
Lemma round_aux_ge0 m e lc : 0 <= m ->
  SFleb (S754_zero false) (binary_round_aux prec emax false m e lc) = true.
Proof.
  intros Hm. unfold binary_round_aux.
  pose proof (shr_fexp_spec m e lc Hm) as H1.
  destruct (shr_fexp prec emax m e lc) as [mrs1 e1]. destruct H1 as [He1 Hm1].
  assert (H0 : 0 <= shr_m mrs1).
  { rewrite Hm1. apply Z.div_pos; [exact Hm | apply Z.pow_pos_nonneg; lia]. }
  set (m1 := round_nearest_even (shr_m mrs1) (loc_of_shr_record mrs1)).
  assert (Hr : 0 <= m1).
  { pose proof (round_nearest_even_ge (shr_m mrs1) (loc_of_shr_record mrs1)). unfold m1. lia. }
  pose proof (shr_fexp_spec m1 e1 loc_Exact Hr) as H2.
  destruct (shr_fexp prec emax m1 e1 loc_Exact) as [mrs2 E]. destruct H2 as [HE Hm2].
  assert (H3 : 0 <= shr_m mrs2).
  { rewrite Hm2. apply Z.div_pos; [exact Hr | apply Z.pow_pos_nonneg; lia]. }
  destruct (shr_m mrs2) as [|p|p]; [reflexivity | | lia].
  destruct (E <=? emax - prec); reflexivity.
Qed.

Lemma ge0_of_round z m e lc : 0 <= m ->
  Prim2SF z = binary_round_aux prec emax false m e lc -> (0 <=? z)%float = true.
Proof.
  intros Hm Hz. rewrite leb_spec, Hz. change (Prim2SF 0%float) with (S754_zero false).
  apply round_aux_ge0, Hm.
Qed.

Lemma mul_ge0 p c : (0 <=? p)%float = true -> is_pos c = true -> (0 <=? p * c)%float = true.
Proof.
  intros Hp Hc. unfold is_pos in Hc.
  destruct (Prim2SF c) as [| | |[] mc ec] eqn:Ec; try discriminate Hc.
  destruct (nonneg_cases p Hp) as [[s Ep] | [Ep | (mp & ep & Ep)]].
  - rewrite leb_spec, mul_spec, Ep, Ec. change (Prim2SF 0%float) with (S754_zero false).
    destruct s; reflexivity.
  - rewrite leb_spec, mul_spec, Ep, Ec. reflexivity.
  - apply (ge0_of_round _ (Zpos (mp * mc)) (ep + ec) loc_Exact); [lia |].
    rewrite mul_spec, Ep, Ec. reflexivity.
Qed.

Lemma div_ge0 p c : (0 <=? p)%float = true -> is_pos c = true -> (0 <=? p / c)%float = true.
Proof.
  intros Hp Hc. unfold is_pos in Hc.
  destruct (Prim2SF c) as [| | |[] mc ec] eqn:Ec; try discriminate Hc.
  destruct (nonneg_cases p Hp) as [[s Ep] | [Ep | (mp & ep & Ep)]].
  - rewrite leb_spec, div_spec, Ep, Ec. change (Prim2SF 0%float) with (S754_zero false).
    destruct s; reflexivity.
  - rewrite leb_spec, div_spec, Ep, Ec. reflexivity.
  - pose proof (div_core_spec mp ep mc ec) as Hd.
    assert (Hz : Prim2SF (p / c) =
      let '(mz, ez, lz) := SFdiv_core_binary prec emax (Zpos mp) ep (Zpos mc) ec in
      binary_round_aux prec emax false mz ez lz) by (rewrite div_spec, Ep, Ec; reflexivity).
    destruct (SFdiv_core_binary prec emax (Zpos mp) ep (Zpos mc) ec) as [[q e'] lz].
    apply (ge0_of_round _ q e' lz); [apply Hd | exact Hz].
Qed.

Lemma add_ge0 u v : (0 <=? u)%float = true -> (0 <=? v)%float = true -> (0 <=? u + v)%float = true.
Proof.
  intros Hu Hv.
  destruct (nonneg_cases u Hu) as [[su Eu] | [Eu | (mu & eu & Eu)]];
    destruct (nonneg_cases v Hv) as [[sv Ev] | [Ev | (mv & ev & Ev)]];
    try (rewrite leb_spec, add_spec, Eu, Ev; change (Prim2SF 0%float) with (S754_zero false);
         try destruct su; try destruct sv; reflexivity).
  set (ez := Z.min eu ev).
  set (pu := fst (shl_align mu eu ez)). set (pv := fst (shl_align mv ev ez)).
  assert (Hs : Prim2SF (u + v) = binary_normalize prec emax (Zpos (pu + pv)) ez false)
    by (rewrite add_spec, Eu, Ev; reflexivity).
  destruct (binary_normalize_pos (pu + pv) ez) as (mz & ez' & En & _).
  rewrite En in Hs. apply (ge0_of_round _ (Zpos mz) ez' loc_Exact); [lia | exact Hs].
Qed.

(** A square root is never below [0]: a negative argument gives NaN. *)
Lemma sqrt_not_neg u : (sqrt u <? 0)%float = false.
Proof.
  rewrite ltb_spec, sqrt_spec. change (Prim2SF 0%float) with (S754_zero false).
  destruct (Prim2SF u) as [[]|[]| |[] m e]; try reflexivity.
  unfold SF64sqrt, SFsqrt. destruct (SFsqrt_core_binary prec emax (Zpos m) e) as [[mz ez] lz].
  pose proof (round_aux_nonneg mz ez lz) as H.
  destruct (binary_round_aux prec emax false mz ez lz) as [s|s| |s m' e']; subst; reflexivity.
Qed.

End Bounds.


Import Bounds.

(** ** Upper bounds through rounding

    The other direction: a rounded result is at most twice the exact value
    plus the smallest subnormal, which is enough to show that sums,
    products and quotients of small numbers stay small. *)

Module Upper.

Local Open Scope Z_scope.

Lemma round_nearest_even_le mx lx : round_nearest_even mx lx <= mx + 1.
Proof. destruct lx as [|[]]; simpl; try lia. destruct (Z.even mx); lia. Qed.

Lemma val_div_le a e k : 0 <= a -> 0 <= k -> (val (a / 2 ^ k) (e + k) <= val a e)%Q.
Proof.
  intros Ha Hk. rewrite val_shift by exact Hk. apply val_le_same.
  pose proof (Z.pow_pos_nonneg 2 k ltac:(lia)). rewrite Z.mul_comm. apply Z.mul_div_le. lia.
Qed.

Lemma tiny_nonneg : (0 <= val 1 (-1074))%Q.
Proof. apply val_nonneg. lia. Qed.

(** Rounding a value [m 2^e] that is not too large never gives more than
    twice that value plus the smallest subnormal. *)
Lemma round_aux_le m e lc : 0 <= m -> (m = 0 -> e <= -1074) -> (val m e <= val 1 900)%Q ->
  match binary_round_aux prec emax false m e lc with
  | S754_zero _ => True
  | S754_finite _ m'' E => (val (Zpos m'') E <= 2 * val m e + val 1 (-1074))%Q
  | _ => False
  end.
Proof.
  intros Hm Hm0 Hb. unfold binary_round_aux.
  pose proof (shr_fexp_spec m e lc Hm) as H1.
  destruct (shr_fexp prec emax m e lc) as [mrs1 e1]. destruct H1 as [He1 Hm1].
  rewrite fexp_eq in He1.
  assert (Hc : e1 = -1074 \/ (0 < m /\ e1 = e) \/ (0 < m /\ e1 <= Z.log2 m + e)).
  { destruct (Z.eq_dec m 0) as [E0|Hn].
    - subst m. specialize (Hm0 eq_refl). left. change (Zdigits2 0) with 0 in He1. lia.
    - rewrite Zdigits2_log2 in He1 by lia. lia. }
  set (m1 := round_nearest_even (shr_m mrs1) (loc_of_shr_record mrs1)).
  assert (Hr1 : shr_m mrs1 <= m1) by apply round_nearest_even_ge.
  assert (Hr2 : m1 <= shr_m mrs1 + 1) by apply round_nearest_even_le.
  assert (Hs0 : 0 <= shr_m mrs1).
  { rewrite Hm1. apply Z.div_pos; [exact Hm | apply Z.pow_pos_nonneg; lia]. }
  assert (He1e : e <= e1) by lia.
  pose proof (shr_fexp_spec m1 e1 loc_Exact ltac:(lia)) as H2.
  destruct (shr_fexp prec emax m1 e1 loc_Exact) as [mrs2 E]. destruct H2 as [HE Hm2].
  assert (HEe : e1 <= E) by lia.
  assert (A1 : forall p, shr_m mrs2 = Zpos p -> (val (Zpos p) E <= val m1 e1)%Q).
  { intros p Hp. rewrite <- Hp, Hm2.
    pose proof (val_div_le m1 e1 (E - e1) ltac:(lia) ltac:(lia)) as X.
    replace (e1 + (E - e1)) with E in X by ring. exact X. }
  assert (A2 : (val m1 e1 <= val m e + val 1 e1)%Q).
  { apply Qle_trans with (val (shr_m mrs1 + 1) e1); [apply val_le_same; lia |].
    rewrite val_plus. apply Qplus_le_compat; [| apply Qle_refl].
    rewrite Hm1. pose proof (val_div_le m e (e1 - e) Hm ltac:(lia)) as X.
    replace (e + (e1 - e)) with e1 in X by ring. exact X. }
  assert (A3 : (val 1 e1 <= val m e + val 1 (-1074))%Q).
  { pose proof tiny_nonneg. pose proof (val_nonneg m e Hm).
    destruct Hc as [-> | [[Hp ->] | [Hp Hl]]].
    - lra.
    - assert (val 1 e <= val m e)%Q by (apply val_le_same; lia). lra.
    - pose proof (Z.log2_spec m Hp) as [Hl1 _]. pose proof (Z.log2_nonneg m).
      assert (val 1 e1 <= val 1 (e + Z.log2 m))%Q by (apply val_one_le; lia).
      assert (val 1 (e + Z.log2 m) <= val m e)%Q.
      { rewrite val_shift by lia. apply val_le_same. lia. }
      lra. }
  assert (Hv : forall p, shr_m mrs2 = Zpos p ->
    (val (Zpos p) E <= 2 * val m e + val 1 (-1074))%Q).
  { intros p Hp. specialize (A1 p Hp). pose proof (val_nonneg m e Hm). lra. }
  assert (Hpos : 0 <= shr_m mrs2).
  { rewrite Hm2. apply Z.div_pos; [lia | apply Z.pow_pos_nonneg; lia]. }
  destruct (shr_m mrs2) as [|p|p] eqn:Ep; [exact I | | lia].
  destruct (E <=? emax - prec) eqn:HEm; [apply Hv; reflexivity |].
  apply Z.leb_gt in HEm. change (emax - prec) with 971 in HEm.
  specialize (Hv p eq_refl).
  assert (val 1 972 <= val (Zpos p) E)%Q.
  { apply Qle_trans with (val 1 E); [apply val_one_le; lia | apply val_le_same; lia]. }
  assert (Hbig : (2 * val 1 900 + val 1 (-1074) < val 1 972)%Q) by (unfold Qlt; vm_compute; reflexivity).
  lra.
Qed.

Lemma normalize_le z ez (B : Q) :
  (val (Z.abs z) ez <= B)%Q -> (B <= val 1 900)%Q ->
  match binary_normalize prec emax z ez false with
  | S754_zero _ => True
  | S754_finite _ m E => (val (Zpos m) E <= 2 * B + val 1 (-1074))%Q
  | _ => False
  end.
Proof.
  intros H1 H2.
  assert (P : forall p, (val (Zpos p) ez <= B)%Q ->
    match binary_normalize prec emax (Zpos p) ez false with
    | S754_zero _ => True
    | S754_finite _ m E => (val (Zpos m) E <= 2 * B + val 1 (-1074))%Q
    | _ => False
    end).
  { intros p Hp. destruct (binary_normalize_pos p ez) as (mz & ez' & En & Hv). rewrite En.
    rewrite <- Hv in Hp.
    pose proof (round_aux_le (Zpos mz) ez' loc_Exact ltac:(lia) ltac:(lia) (Qle_trans _ _ _ Hp H2)) as R.
    destruct (binary_round_aux prec emax false (Zpos mz) ez' loc_Exact); try exact R.
    lra. }
  destruct z as [|p|p]; [exact I | apply P, H1 |].
  change (Zneg p) with (Z.opp (Zpos p)). rewrite normalize_opp by discriminate.
  specialize (P p H1). destruct (binary_normalize prec emax (Zpos p) ez false); exact P.
Qed.

(** ** Upper bounds on primitive floats *)

Lemma fval_nonneg x : (0 <= fval x)%Q.
Proof. unfold fval. destruct (Prim2SF x) as [| | |[] m e]; try apply Qle_refl. apply val_nonneg. lia. Qed.

Lemma fval_pos x : is_pos x = true -> (0 < fval x)%Q.
Proof. intros H. destruct (is_pos_facts x H) as (k & j & _ & -> & _). apply val_pos. lia. Qed.

(** What [|x| <= A] says of [x] when [A] is positive. *)
Lemma abs_le_cases x A : is_pos A = true -> (abs x <=? A)%float = true ->
  (exists s, Prim2SF x = S754_zero s) \/
  exists s m e, Prim2SF x = S754_finite s m e /\ (val (Zpos m) e <= fval A)%Q.
Proof.
  intros HA H. pose proof (Prim2SF_valid A) as VA. pose proof (Prim2SF_valid x) as Vx.
  rewrite leb_spec, abs_spec in H. unfold is_pos, fval in *.
  destruct (Prim2SF A) as [| | |[] kA jA]; try discriminate HA.
  destruct (Prim2SF x) as [s|s| |s m e]; try discriminate H.
  - left. eauto.
  - right. exists s, m, e. split; [reflexivity |].
    apply (proj1 (SFleb_fin_pos m e kA jA Vx VA)), H.
Qed.

Lemma abs_le_of x A : is_pos A = true ->
  ((exists s, Prim2SF x = S754_zero s) \/
   exists s m e, Prim2SF x = S754_finite s m e /\ (val (Zpos m) e <= fval A)%Q) ->
  (abs x <=? A)%float = true.
Proof.
  intros HA H. pose proof (Prim2SF_valid A) as VA. pose proof (Prim2SF_valid x) as Vx.
  rewrite leb_spec, abs_spec. unfold is_pos, fval in *.
  destruct (Prim2SF A) as [| | |[] kA jA]; try discriminate HA.
  destruct H as [[s E] | (s & m & e & E & H)]; rewrite E in *; [reflexivity |].
  apply (proj2 (SFleb_fin_pos m e kA jA Vx VA)), H.
Qed.

Lemma abs_le_weaken A B x : is_pos A = true -> is_pos B = true -> (fval A <= fval B)%Q ->
  (abs x <=? A)%float = true -> (abs x <=? B)%float = true.
Proof.
  intros HA HB Hle H. apply abs_le_of; [exact HB |].
  destruct (abs_le_cases x A HA H) as [Z | (s & m & e & E & Hv)]; [left; exact Z | right].
  exists s, m, e. split; [exact E | eapply Qle_trans; eassumption].
Qed.

(** A rounded result, or its opposite, within a bound. *)
Lemma abs_le_of_round (r : spec_float) (B : Q) x C : is_pos C = true ->
  Prim2SF x = r \/ Prim2SF x = SFopp r ->
  match r with
  | S754_zero _ => True
  | S754_finite _ m E => (val (Zpos m) E <= B)%Q
  | _ => False
  end ->
  (B <= fval C)%Q -> (abs x <=? C)%float = true.
Proof.
  intros HC Hx R HB. apply abs_le_of; [exact HC |].
  destruct r as [s|s| |s m E]; try contradiction; destruct Hx as [Hx|Hx]; rewrite Hx.
  - left. eexists; reflexivity.
  - left. eexists; reflexivity.
  - right. exists s, m, E. split; [reflexivity | lra].
  - right. exists (negb s), m, E. split; [reflexivity | lra].
Qed.

Lemma round_aux_sign s m e lc :
  binary_round_aux prec emax s m e lc =
  if s then SFopp (binary_round_aux prec emax false m e lc) else binary_round_aux prec emax false m e lc.
Proof. destruct s; [apply (round_aux_negb false) | reflexivity]. Qed.

Lemma sub_add_opp x y : (x - y = x + (- y))%float.
Proof.
  apply Prim2SF_inj. rewrite sub_spec, add_spec, opp_spec.
  destruct (Prim2SF x) as [[]|[]| |[] mx ex], (Prim2SF y) as [[]|[]| |[] my ey]; reflexivity.
Qed.

Lemma sub_nan_l x : (nan - x)%float = nan.  Proof. nan_tac. Qed.
Lemma div_nan_l x : (nan / x)%float = nan.  Proof. nan_tac. Qed.

Lemma shl_align_fst_val mx ex ez : ez <= ex ->
  (val (Zpos (fst (shl_align mx ex ez))) ez == val (Zpos mx) ex)%Q.
Proof.
  intros H. rewrite shl_align_fst by exact H. rewrite <- val_shift by lia.
  replace (ez + (ex - ez)) with ex by ring. reflexivity.
Qed.

(** The sum of two numbers of magnitude at most [A] and [B]. *)
Lemma add_le a b A B C : is_pos A = true -> is_pos B = true -> is_pos C = true ->
  (abs a <=? A)%float = true -> (abs b <=? B)%float = true ->
  (fval A + fval B <= val 1 900)%Q ->
  (2 * (fval A + fval B) + val 1 (-1074) <= fval C)%Q ->
  (abs (a + b) <=? C)%float = true.
Proof.
  intros HA HB HC Ha Hb H9 HCb.
  pose proof (fval_nonneg A). pose proof (fval_nonneg B). pose proof tiny_nonneg.
  destruct (abs_le_cases a A HA Ha) as [[sa Ea] | (sa & ma & ea & Ea & Hva)];
  destruct (abs_le_cases b B HB Hb) as [[sb Eb] | (sb & mb & eb & Eb & Hvb)].
  - apply abs_le_of; [exact HC |]. left. rewrite add_spec, Ea, Eb. destruct sa, sb; eexists; reflexivity.
  - apply abs_le_of; [exact HC |]. right. exists sb, mb, eb.
    rewrite add_spec, Ea, Eb. split; [reflexivity | lra].
  - apply abs_le_of; [exact HC |]. right. exists sa, ma, ea.
    rewrite add_spec, Ea, Eb. split; [reflexivity | lra].
  - set (ez := Z.min ea eb).
    set (pa := fst (shl_align ma ea ez)). set (pb := fst (shl_align mb eb ez)).
    assert (Hs : Prim2SF (a + b) =
      binary_normalize prec emax (cond_Zopp sa (Zpos pa) + cond_Zopp sb (Zpos pb)) ez false)
      by (rewrite add_spec, Ea, Eb; reflexivity).
    assert (Hpa : (val (Zpos pa) ez == val (Zpos ma) ea)%Q) by (apply shl_align_fst_val; lia).
    assert (Hpb : (val (Zpos pb) ez == val (Zpos mb) eb)%Q) by (apply shl_align_fst_val; lia).
    assert (Hz : (val (Z.abs (cond_Zopp sa (Zpos pa) + cond_Zopp sb (Zpos pb))) ez <= fval A + fval B)%Q).
    { apply Qle_trans with (val (Zpos pa + Zpos pb) ez).
      - apply val_le_same. destruct sa, sb; unfold cond_Zopp; lia.
      - rewrite val_plus, Hpa, Hpb. lra. }
    apply (abs_le_of_round _ _ (a + b) C HC (or_introl Hs) (normalize_le _ ez _ Hz H9) HCb).
Qed.

Lemma sub_le a b A B C : is_pos A = true -> is_pos B = true -> is_pos C = true ->
  (abs a <=? A)%float = true -> (abs b <=? B)%float = true ->
  (fval A + fval B <= val 1 900)%Q ->
  (2 * (fval A + fval B) + val 1 (-1074) <= fval C)%Q ->
  (abs (a - b) <=? C)%float = true.
Proof.
  intros HA HB HC Ha Hb. rewrite sub_add_opp. apply add_le; try assumption.
  rewrite abs_opp. exact Hb.
Qed.

(** The product of two numbers of magnitude at most [A] and [B]. *)
Lemma mul_le a b A B C : is_pos A = true -> is_pos B = true -> is_pos C = true ->
  (abs a <=? A)%float = true -> (abs b <=? B)%float = true ->
  (fval A * fval B <= val 1 900)%Q ->
  (2 * (fval A * fval B) + val 1 (-1074) <= fval C)%Q ->
  (abs (a * b) <=? C)%float = true.
Proof.
  intros HA HB HC Ha Hb H9 HCb.
  destruct (abs_le_cases a A HA Ha) as [[sa Ea] | (sa & ma & ea & Ea & Hva)];
  destruct (abs_le_cases b B HB Hb) as [[sb Eb] | (sb & mb & eb & Eb & Hvb)];
  try (apply abs_le_of; [exact HC |]; left; rewrite mul_spec, Ea, Eb; eexists; reflexivity).
  assert (Hv : (val (Zpos (ma * mb)) (ea + eb) <= fval A * fval B)%Q).
  { rewrite Pos2Z.inj_mul, val_mult. apply Qmult_le_compat_nonneg.
    - split; [apply val_nonneg; lia | exact Hva].
    - split; [apply val_nonneg; lia | exact Hvb]. }
  pose proof (round_aux_le (Zpos (ma * mb)) (ea + eb) loc_Exact ltac:(lia) ltac:(lia)
    (Qle_trans _ _ _ Hv H9)) as R.
  apply (abs_le_of_round (binary_round_aux prec emax false (Zpos (ma * mb)) (ea + eb) loc_Exact)
    (2 * (fval A * fval B) + val 1 (-1074)) (a * b) C HC).
  - rewrite mul_spec, Ea, Eb. change (SF64mul _ _) with
      (binary_round_aux prec emax (xorb sa sb) (Zpos (ma * mb)) (ea + eb) loc_Exact).
    rewrite round_aux_sign. destruct (xorb sa sb); [right | left]; reflexivity.
  - destruct (binary_round_aux prec emax false (Zpos (ma * mb)) (ea + eb) loc_Exact); try exact R.
    lra.
  - exact HCb.
Qed.

(** The quotient of a number of magnitude at most [A] by a positive constant. *)
Lemma div_le a c A C : is_pos A = true -> is_pos c = true -> is_pos C = true ->
  (abs a <=? A)%float = true ->
  (fval A / fval c <= val 1 900)%Q ->
  (2 * (fval A / fval c) + val 1 (-1074) <= fval C)%Q ->
  (abs (a / c) <=? C)%float = true.
Proof.
  intros HA Hc HC Ha H9 HCb.
  pose proof (fval_pos c Hc) as Hc0.
  destruct (is_pos_facts c Hc) as (mc & ec & Ec & Fc & _).
  destruct (abs_le_cases a A HA Ha) as [[sa Ea] | (sa & ma & ea & Ea & Hva)].
  - apply abs_le_of; [exact HC |]. left. rewrite div_spec, Ea, Ec. eexists; reflexivity.
  - pose proof (div_core_spec ma ea mc ec) as Hd.
    assert (Hz : Prim2SF (a / c) =
      let '(mz, ez, lz) := SFdiv_core_binary prec emax (Zpos ma) ea (Zpos mc) ec in
      binary_round_aux prec emax (xorb sa false) mz ez lz) by (rewrite div_spec, Ea, Ec; reflexivity).
    destruct (SFdiv_core_binary prec emax (Zpos ma) ea (Zpos mc) ec) as [[q e'] lz].
    destruct Hd as (Hq & H1 & H2 & H3).
    rewrite <- Fc in H1.
    assert (Hv : (val q e' <= fval A / fval c)%Q).
    { apply Qle_shift_div_l; [exact Hc0 |]. eapply Qle_trans; [exact H1 | exact Hva]. }
    assert (Hq0 : q = 0 -> e' <= -1074).
    { intros E0. destruct (Z.le_gt_cases e' (-1074)) as [|Hgt]; [assumption |].
      specialize (H3 Hgt). lia. }
    pose proof (round_aux_le q e' lz Hq Hq0 (Qle_trans _ _ _ Hv H9)) as R.
    apply (abs_le_of_round (binary_round_aux prec emax false q e' lz)
      (2 * (fval A / fval c) + val 1 (-1074)) (a / c) C HC).
    + rewrite Hz, round_aux_sign. destruct (xorb sa false); [right | left]; reflexivity.
    + destruct (binary_round_aux prec emax false q e' lz); try exact R.
      pose proof tiny_nonneg. lra.
    + exact HCb.
Qed.

(** ** Lower bounds, continued *)

Lemma val_zero e : (val 0 e == 0)%Q.
Proof. unfold val. change (inject_Z 0) with 0%Q. ring. Qed.

Lemma val_opp m e : (val (- m) e == - val m e)%Q.
Proof. unfold val. rewrite inject_Z_opp. ring. Qed.

(** A positive constant plus a number of magnitude at most [D]. *)
Lemma add_ge_abs c d D L : is_pos c = true -> is_pos D = true -> is_pos L = true ->
  (abs d <=? D)%float = true -> (fval L + fval D <= fval c)%Q -> (L <=? c + d)%float = true.
Proof.
  intros Hc HD HL Hd Hb.
  pose proof (fval_nonneg D). pose proof (fval_pos L HL).
  destruct (is_pos_facts c Hc) as (mc & ec & Ec & Fc & _). rewrite Fc in Hb.
  destruct (abs_le_cases d D HD Hd) as [[sd Ed] | (sd & md & ed & Ed & Hvd)].
  - apply ge_of; [exact HL |]. right. exists mc, ec. rewrite add_spec, Ec, Ed.
    split; [reflexivity | lra].
  - set (ez := Z.min ec ed).
    set (pc := fst (shl_align mc ec ez)). set (pd := fst (shl_align md ed ez)).
    assert (Hs : Prim2SF (c + d) =
      binary_normalize prec emax (Zpos pc + cond_Zopp sd (Zpos pd)) ez false)
      by (rewrite add_spec, Ec, Ed; reflexivity).
    assert (Hpc : (val (Zpos pc) ez == val (Zpos mc) ec)%Q) by (apply shl_align_fst_val; lia).
    assert (Hpd : (val (Zpos pd) ez == val (Zpos md) ed)%Q) by (apply shl_align_fst_val; lia).
    assert (Hz : (fval L <= val (Zpos pc + cond_Zopp sd (Zpos pd)) ez)%Q).
    { apply Qle_trans with (val (Zpos pc + - Zpos pd) ez).
      - rewrite val_plus, val_opp, Hpc, Hpd. lra.
      - apply val_le_same. destruct sd; unfold cond_Zopp; lia. }
    destruct (Zpos pc + cond_Zopp sd (Zpos pd)) as [|p|p] eqn:Ez.
    + exfalso. rewrite val_zero in Hz. lra.
    + destruct (binary_normalize_pos p ez) as (mz & ez' & En & Hv). rewrite En in Hs.
      apply (round_ge L (c + d) (Zpos mz) ez' loc_Exact (val (Zpos mz) ez') HL ltac:(lia) Hs).
      * apply Qle_refl.
      * apply val_lt_same. lia.
      * rewrite Hv. exact Hz.
    + exfalso. assert (val (Zneg p) ez <= val 0 ez)%Q by (apply val_le_same; lia).
      rewrite val_zero in H1. lra.
Qed.

(** The product of two numbers at least [La] and [Lb]. *)
Lemma mul_ge2 La Lb L a b : is_pos La = true -> is_pos Lb = true -> is_pos L = true ->
  (fval L <= fval La * fval Lb)%Q -> (La <=? a)%float = true -> (Lb <=? b)%float = true ->
  (L <=? a * b)%float = true.
Proof.
  intros HLa HLb HL Hb Ha Hb'.
  destruct (ge_cases La a HLa Ha) as [Ea | (ma & ea & Ea & Hva)];
  destruct (ge_cases Lb b HLb Hb') as [Eb | (mb & eb & Eb & Hvb)];
  try (apply ge_of; [exact HL |]; left; rewrite mul_spec, Ea, Eb; reflexivity).
  apply (round_ge L (a * b) (Zpos (ma * mb)) (ea + eb) loc_Exact (val (Zpos (ma * mb)) (ea + eb))).
  - exact HL.
  - lia.
  - rewrite mul_spec, Ea, Eb. reflexivity.
  - apply Qle_refl.
  - apply val_lt_same. lia.
  - apply Qle_trans with (1 := Hb). rewrite Pos2Z.inj_mul, val_mult.
    apply Qmult_le_compat_nonneg.
    + split; [apply fval_nonneg | exact Hva].
    + split; [apply fval_nonneg | exact Hvb].
Qed.

(** NaN, or of magnitude at most [A]. *)
Definition small (A x : float) : Prop := x = nan \/ (abs x <=? A)%float = true.

End Upper.

Import Upper.

(** * The program's behaviour *)

Section Behaviour.

Variable math : GoMath.

Lemma distanceLAB_nan_of_cPrimes_zero l1 l2 p1 p2 :
  (forall z, (z =? 0) = true -> math.(Pow) z 7 = z) ->
  cPrimes math l1 l2 = (p1, p2) -> (p1 =? 0) = true -> (p2 =? 0) = true ->
  distanceLAB math l1 l2 = nan.
Proof.
  intros HPow H H1 H2. unfold distanceLAB, cPrimes, rC in *. cbv zeta in *.
  injection H as E1 E2. rewrite E1, E2.
  assert (Hc : ((p1 + p2) / 2 =? 0) = true)
    by (apply zero_div_two, zero_add_zero; assumption).
  rewrite (HPow _ Hc).
  destruct (zero_mul_l _ (math.(Pow) 25 7) Hc) as [Hz | Hn].
  - rewrite (zero_div_zero _ _ Hc Hz).
    repeat rewrite ?mul_nan_r, ?mul_nan_l, ?add_nan_r, ?add_nan_l, ?sqrt_nan.
    reflexivity.
  - rewrite Hn, div_nan_r.
    repeat rewrite ?mul_nan_r, ?mul_nan_l, ?add_nan_r, ?add_nan_l, ?sqrt_nan.
    reflexivity.
Qed.

Lemma toLAB_black : toLAB math black = {| l := -16; a := 0; b := 0 |}.
Proof. vm_compute. reflexivity. Qed.

(** Two LAB values with [a = b = 0] have corrected chromas [(0, 0)]. *)
Lemma cPrimes_grey l1 l2 :
  (forall z, (z =? 0) = true -> math.(Pow) z 7 = z) ->
  math.(Pow) 25 7 = 6103515625 ->
  cPrimes math {| l := l1; a := 0; b := 0 |} {| l := l2; a := 0; b := 0 |} = (0, 0).
Proof.
  intros HPow H25. unfold cPrimes. cbn [a b]. cbv zeta.
  replace ((sqrt (0 * 0 + 0 * 0) + sqrt (0 * 0 + 0 * 0)) / 2) with 0 by reflexivity.
  rewrite (HPow 0 eq_refl), H25. vm_compute. reflexivity.
Qed.

Lemma cPrimes_black :
  (forall z, (z =? 0) = true -> math.(Pow) z 7 = z) ->
  math.(Pow) 25 7 = 6103515625 ->
  cPrimes math (toLAB math black) (toLAB math black) = (0, 0).
Proof.
  intros HPow H25. rewrite toLAB_black. apply cPrimes_grey; assumption.
Qed.

Lemma Distance_black_black :
  (forall z, (z =? 0) = true -> math.(Pow) z 7 = z) ->
  math.(Pow) 25 7 = 6103515625 ->
  Distance math black black = nan.
Proof.
  intros HPow H25. unfold Distance.
  apply (distanceLAB_nan_of_cPrimes_zero _ _ 0 0 HPow); [| reflexivity | reflexivity].
  apply cPrimes_black; assumption.
Qed.

Lemma distanceLAB_stages l1 l2 :
  distanceLAB math l1 l2 =
  let '(c1, c2, h1, h2) := primes math l1 l2 in
  finish math (l2.(l) - l1.(l)) (c2 - c1) (deltaH0 (c1 * c2) (h2 - h1))
    ((l1.(l) + l2.(l)) / 2) (c1 * c2) ((c1 + c2) / 2) (hBar0 (c1 * c2) h1 h2).
Proof. reflexivity. Qed.

Lemma primes_swap l1 l2 :
  primes math l2 l1 = let '(c1, c2, h1, h2) := primes math l1 l2 in (c2, c1, h2, h1).
Proof.
  unfold primes. cbv zeta.
  rewrite (add_comm (sqrt ((l2.(a) * l2.(a)) + (l2.(b) * l2.(b))))).
  reflexivity.
Qed.

Lemma deltaH0_swapped p d d' : swapped d d' -> swapped (deltaH0 p d) (deltaH0 p d').
Proof.
  intros Hd. unfold deltaH0. destruct (p =? 0).
  { apply swapped_zero. reflexivity. }
  rewrite (swapped_abs _ _ Hd).
  destruct Hd as [-> | [-> Hz]].
  - destruct (abs d <=? 180) eqn:H1.
    + left. reflexivity.
    + destruct (180 <? d) eqn:H2.
      * rewrite (ltb_180_opp d H2). apply add_opp_swapped.
      * destruct (180 <? - d) eqn:H3.
        -- apply sub_opp_swapped.
        -- rewrite (branch_nan d H1 H2 H3), opp_nan, add_nan_l. apply swapped_nan.
  - replace (abs d <=? 180) with true
      by (destruct (zero_cases d Hz) as [-> | ->]; reflexivity).
    apply swapped_zero, Hz.
Qed.

Lemma hBar0_comm p h1 h2 : hBar0 p h2 h1 = hBar0 p h1 h2.
Proof.
  unfold hBar0. rewrite (add_comm h2 h1), (swapped_abs _ _ (sub_swapped h1 h2)).
  reflexivity.
Qed.

Section Odd_sine.

Hypothesis Sin_odd : forall x, math.(Sin) (- x) = - math.(Sin) x.
Hypothesis Sin_zero : math.(Sin) 0 = 0.

Lemma swapped_sin u v : swapped u v -> swapped (math.(Sin) u) (math.(Sin) v).
Proof.
  intros [-> | [-> Hz]].
  - left. apply Sin_odd.
  - apply swapped_zero. destruct (zero_cases u Hz) as [-> | ->].
    + rewrite Sin_zero. reflexivity.
    + rewrite Sin_odd, Sin_zero. reflexivity.
Qed.

Lemma finish_swapped dL dL' dC dC' d0 d0' lBar p cBar hBar :
  swapped dL dL' -> swapped dC dC' -> swapped d0 d0' ->
  finish math dL dC d0 lBar p cBar hBar = finish math dL' dC' d0' lBar p cBar hBar.
Proof.
  intros HL HC H0. unfold finish. cbv zeta.
  apply final_swapped; apply swapped_div; try assumption.
  apply swapped_mul_l, swapped_sin, swapped_div, H0.
Qed.

Lemma distanceLAB_comm l1 l2 : distanceLAB math l1 l2 = distanceLAB math l2 l1.
Proof.
  rewrite !distanceLAB_stages, (primes_swap l1 l2).
  destruct (primes math l1 l2) as [[[c1 c2] h1] h2]. cbv beta iota.
  rewrite (mul_comm c2 c1), (add_comm c2 c1), (add_comm l2.(l) l1.(l)), hBar0_comm.
  apply finish_swapped; [apply sub_swapped | apply sub_swapped | ].
  apply deltaH0_swapped, sub_swapped.
Qed.

End Odd_sine.

End Behaviour.

(** * [toLAB] on 8-bit colours

    Every non-zero byte [v] is [257 v] after [RGBA()], so its normalised
    value [257 v / 255] is above 1, far above the [0.04045] threshold, and
    the linearised channel is [math.Pow] of a base at least 1.  Each XYZ
    axis of a colour with a non-zero channel is then well above
    [0.008856], and companding maps it to [math.Pow(v, 0)]. *)

Lemma lin_check_bytes : forallb lin_check (map Z.of_nat (seq 1 255)) = true.
Proof. vm_compute. reflexivity. Qed.

Lemma lin_check_byte v : (1 <= v <= 255)%Z -> lin_check v = true.
Proof.
  intros Hv. pose proof lin_check_bytes as H. rewrite forallb_forall in H.
  apply H, in_map_iff. exists (Z.to_nat v). split; [lia |].
  apply in_seq. lia.
Qed.

Ltac decide_Q := apply Qle_bool_imp_le; vm_compute; reflexivity.
Ltac decide_Qlt := unfold Qlt; vm_compute; reflexivity.

Lemma const_int_div_1_3 : const_int_div 1 3 = 0.
Proof. reflexivity. Qed.

Lemma check_from_spec f u n : check_from f u n = true ->
  forall v, (u <= v < u + Z.of_nat n)%Z -> f v = true.
Proof.
  revert u. induction n as [|n IH]; intros u H v Hv; [lia |].
  cbn [check_from] in H. apply andb_prop in H as [H1 H2].
  destruct (Z.eq_dec v u) as [->|Hne]; [exact H1 |].
  apply (IH (Z.succ u) H2). lia.
Qed.

(** Every 16-bit channel value, checked one by one. *)
Lemma u16_check_all : check_from u16_check 0 (Z.to_nat 65536) = true.
Proof. vm_compute. reflexivity. Qed.

Lemma u16_facts u : (0 <= u <= 65535)%Z ->
  (0 <=? float64_of_uint32 u / 255) = true /\ (float64_of_uint32 u / 255 <=? 257) = true /\
  (1 <? float64_of_uint32 u / 255) = (255 <? u)%Z /\
  (0.04045 <? float64_of_uint32 u / 255) = (11 <=? u)%Z.
Proof.
  intros Hu. assert (H : u16_check u = true).
  { apply (check_from_spec _ _ _ u16_check_all). rewrite Z2Nat.id by lia. lia. }
  unfold u16_check in H. cbv beta zeta in H.
  apply andb_prop in H as [H H4]. apply andb_prop in H as [H H3]. apply andb_prop in H as [H1 H2].
  apply Bool.eqb_prop in H3, H4. auto.
Qed.

Section Eight_bit.

Variable math : GoMath.

Hypothesis Pow_zero : forall x, math.(Pow) x 0 = 1.
Hypothesis Pow_ge_one : forall x, (1 <=? x) = true -> (1 <=? math.(Pow) x 2.4) = true.

(** A channel after [RGBA()], normalisation, linearisation and scaling
    by 100 is exactly 0 for a zero byte and at least 100 otherwise. *)
Lemma channel_cases v : byte_ok v = true ->
  (v = 0%Z /\ linearize math (float64_of_uint32 (widen8 v) / 255) * 100 = 0) \/
  (v <> 0%Z /\ (100 <=? linearize math (float64_of_uint32 (widen8 v) / 255) * 100) = true).
Proof.
  intros Hv. unfold byte_ok in Hv. apply andb_prop in Hv as [H1 H2].
  apply Z.leb_le in H1, H2.
  destruct (Z.eq_dec v 0) as [->|Hne].
  - left. split; [reflexivity | vm_compute; reflexivity].
  - right. split; [exact Hne |].
    pose proof (lin_check_byte v ltac:(lia)) as Hc. unfold lin_check in Hc.
    set (r := float64_of_uint32 (widen8 v) / 255) in *.
    apply andb_prop in Hc as [Hlt Hge].
    unfold linearize. rewrite Hlt.
    apply (mul_ge 1 100 100); try reflexivity; [decide_Q |].
    apply Pow_ge_one, Hge.
Qed.

(** One XYZ axis, [((r * c1) + (g * c2)) + (b * c3)], of three channels
    that are each 0 or at least 100, not all 0. *)
Lemma axis_ge L c1 c2 c3 t1 t2 t3 :
  is_pos L = true -> is_pos c1 = true -> is_pos c2 = true -> is_pos c3 = true ->
  (fval L <= fval 100 * fval c1)%Q -> (fval L <= fval 100 * fval c2)%Q ->
  (fval L <= fval 100 * fval c3)%Q ->
  (t1 = 0 \/ (100 <=? t1) = true) -> (t2 = 0 \/ (100 <=? t2) = true) ->
  (t3 = 0 \/ (100 <=? t3) = true) ->
  ((100 <=? t1) = true \/ (100 <=? t2) = true \/ (100 <=? t3) = true) ->
  (L <=? ((t1 * c1) + (t2 * c2)) + (t3 * c3)) = true.
Proof.
  intros HL P1 P2 P3 B1 B2 B3 T1 T2 T3 Hnz.
  assert (Hge : forall t c, is_pos c = true -> (fval L <= fval 100 * fval c)%Q ->
                 (100 <=? t) = true -> (L <=? t * c) = true)
    by (intros t c Pc Bc Ht; apply (mul_ge 100 c L); auto).
  assert (Hnn : forall t c, is_pos c = true -> (fval L <= fval 100 * fval c)%Q ->
                 (t = 0 \/ (100 <=? t) = true) -> (0 <=? t * c) = true).
  { intros t c Pc Bc [-> | Ht].
    - rewrite (zero_mul_pos c Pc). reflexivity.
    - apply (ge_nonneg L); auto. }
  destruct T1 as [E1 | G1].
  - destruct T2 as [E2 | G2].
    + destruct T3 as [E3 | G3].
      * subst. exfalso. destruct Hnz as [H | [H | H]]; discriminate H.
      * apply add_ge_r; [exact HL | | apply Hge; assumption].
        subst. rewrite (zero_mul_pos c1 P1), (zero_mul_pos c2 P2). reflexivity.
    + apply add_ge_l; [exact HL | | apply Hnn; tauto].
      apply add_ge_r; [exact HL | apply Hnn; tauto | apply Hge; assumption].
  - apply add_ge_l; [exact HL | | apply Hnn; tauto].
    apply add_ge_l; [exact HL | apply Hge; assumption | apply Hnn; tauto].
Qed.

(** [toXYZ] of a colour with a non-zero byte channel: every axis is well
    above 0. *)
Lemma toXYZ_nonzero c :
  byte_ok c.(R) = true -> byte_ok c.(G) = true -> byte_ok c.(B) = true ->
  (c.(R) <> 0%Z \/ c.(G) <> 0%Z \/ c.(B) <> 0%Z) ->
  (18 <=? (toXYZ math (of_RGBA8 c)).(x)) = true /\
  (7 <=? (toXYZ math (of_RGBA8 c)).(y)) = true /\
  (1.875 <=? (toXYZ math (of_RGBA8 c)).(z)) = true.
Proof.
  intros HR HG HB Hnz.
  unfold toXYZ, of_RGBA8, RGBA8_RGBA.
  cbv beta iota zeta delta [RGBA x y z].
  destruct (channel_cases _ HR) as [[ER TR] | [ER TR]];
  destruct (channel_cases _ HG) as [[EG TG] | [EG TG]];
  destruct (channel_cases _ HB) as [[EB TB] | [EB TB]].
  all: set (tR := linearize math (float64_of_uint32 (widen8 c.(R)) / 255) * 100) in *.
  all: set (tG := linearize math (float64_of_uint32 (widen8 c.(G)) / 255) * 100) in *.
  all: set (tB := linearize math (float64_of_uint32 (widen8 c.(B)) / 255) * 100) in *.
  all: try (exfalso; destruct Hnz as [H | [H | H]]; contradiction).
  all: assert (SR : tR = 0 \/ (100 <=? tR) = true) by (left; assumption) || (right; assumption).
  all: assert (SG : tG = 0 \/ (100 <=? tG) = true) by (left; assumption) || (right; assumption).
  all: assert (SB : tB = 0 \/ (100 <=? tB) = true) by (left; assumption) || (right; assumption).
  all: assert (Hany : (100 <=? tR) = true \/ (100 <=? tG) = true \/ (100 <=? tB) = true)
         by (left; assumption) || (right; left; assumption) || (right; right; assumption).
  all: split; [| split]; apply axis_ge; first [reflexivity | decide_Q | assumption].
Qed.

(** [toXYZ] on every [color.RGBA] with byte channels. *)
Lemma toXYZ_bytes c :
  byte_ok c.(R) = true -> byte_ok c.(G) = true -> byte_ok c.(B) = true ->
  if (c.(R) =? 0)%Z && (c.(G) =? 0)%Z && (c.(B) =? 0)%Z
  then toXYZ math (of_RGBA8 c) = {| x := 0; y := 0; z := 0 |}
  else (18 <=? (toXYZ math (of_RGBA8 c)).(x)) = true /\
       (7 <=? (toXYZ math (of_RGBA8 c)).(y)) = true /\
       (1.875 <=? (toXYZ math (of_RGBA8 c)).(z)) = true.
Proof.
  intros HR HG HB.
  destruct (Z.eqb_spec c.(R) 0) as [ER|ER];
    destruct (Z.eqb_spec c.(G) 0) as [EG|EG];
    destruct (Z.eqb_spec c.(B) 0) as [EB|EB]; cbn [andb];
    try (apply toXYZ_nonzero; auto; tauto).
  destruct c as [r g bb al]; cbn in ER, EG, EB; subst. vm_compute. reflexivity.
Qed.

Lemma compand_above v : (0.008856 <? v) = true -> compand math v = 1.
Proof. intros H. unfold compand. rewrite H, const_int_div_1_3. apply Pow_zero. Qed.

(** [toLAB] of a colour with a non-zero byte channel is [(100, 0, 0)]. *)
Lemma toLAB_nonzero c :
  byte_ok c.(R) = true -> byte_ok c.(G) = true -> byte_ok c.(B) = true ->
  (c.(R) <> 0%Z \/ c.(G) <> 0%Z \/ c.(B) <> 0%Z) ->
  toLAB math (of_RGBA8 c) = {| l := 100; a := 0; b := 0 |}.
Proof.
  intros HR HG HB Hnz.
  unfold toLAB, toXYZ, of_RGBA8, RGBA8_RGBA.
  cbv beta iota zeta delta [RGBA x y z].
  destruct (channel_cases _ HR) as [[ER TR] | [ER TR]];
  destruct (channel_cases _ HG) as [[EG TG] | [EG TG]];
  destruct (channel_cases _ HB) as [[EB TB] | [EB TB]].
  all: set (tR := linearize math (float64_of_uint32 (widen8 c.(R)) / 255) * 100) in *.
  all: set (tG := linearize math (float64_of_uint32 (widen8 c.(G)) / 255) * 100) in *.
  all: set (tB := linearize math (float64_of_uint32 (widen8 c.(B)) / 255) * 100) in *.
  all: try (exfalso; destruct Hnz as [H | [H | H]]; contradiction).
  all: assert (SR : tR = 0 \/ (100 <=? tR) = true) by (left; assumption) || (right; assumption).
  all: assert (SG : tG = 0 \/ (100 <=? tG) = true) by (left; assumption) || (right; assumption).
  all: assert (SB : tB = 0 \/ (100 <=? tB) = true) by (left; assumption) || (right; assumption).
  all: assert (Hany : (100 <=? tR) = true \/ (100 <=? tG) = true \/ (100 <=? tB) = true)
         by (left; assumption) || (right; left; assumption) || (right; right; assumption).
  all: rewrite (compand_above (((tR * 0.4124) + (tG * 0.3576) + (tB * 0.1805)) / 95.047)),
               (compand_above (((tR * 0.2126) + (tG * 0.7152) + (tB * 0.0722)) / 100.000)),
               (compand_above (((tR * 0.0193) + (tG * 0.1192) + (tB * 0.9505)) / 108.883));
    [reflexivity | ..].
  all: first
    [ apply (gt_of_ge 0.008856 0.1875); [reflexivity | reflexivity | decide_Qlt |];
      apply (div_ge 18 95.047 0.1875); [reflexivity | reflexivity | reflexivity | decide_Q |];
      apply axis_ge; first [reflexivity | decide_Q | assumption]
    | apply (gt_of_ge 0.008856 0.0625); [reflexivity | reflexivity | decide_Qlt |];
      apply (div_ge 7 100.000 0.0625); [reflexivity | reflexivity | reflexivity | decide_Q |];
      apply axis_ge; first [reflexivity | decide_Q | assumption]
    | apply (gt_of_ge 0.008856 0.015625); [reflexivity | reflexivity | decide_Qlt |];
      apply (div_ge 1.875 108.883 0.015625); [reflexivity | reflexivity | reflexivity | decide_Q |];
      apply axis_ge; first [reflexivity | decide_Q | assumption] ].
Qed.

(** [toLAB] on every [color.RGBA] with byte channels. *)
Lemma toLAB_bytes c :
  byte_ok c.(R) = true -> byte_ok c.(G) = true -> byte_ok c.(B) = true ->
  toLAB math (of_RGBA8 c) =
    if (c.(R) =? 0)%Z && (c.(G) =? 0)%Z && (c.(B) =? 0)%Z
    then {| l := -16; a := 0; b := 0 |}
    else {| l := 100; a := 0; b := 0 |}.
Proof.
  intros HR HG HB.
  destruct (Z.eqb_spec c.(R) 0) as [ER|ER];
    destruct (Z.eqb_spec c.(G) 0) as [EG|EG];
    destruct (Z.eqb_spec c.(B) 0) as [EB|EB]; cbn [andb];
    try (apply toLAB_nonzero; auto; tauto).
  destruct c as [r g bb al]; cbn in ER, EG, EB; subst. vm_compute. reflexivity.
Qed.

Hypothesis Pow_zero_7 : forall z, (z =? 0) = true -> math.(Pow) z 7 = z.
Hypothesis Pow_25_7 : math.(Pow) 25 7 = 6103515625.

(** So [Distance] is NaN on every pair of [color.RGBA] values. *)
Lemma Distance_bytes_nan c1 c2 :
  byte_ok c1.(R) = true -> byte_ok c1.(G) = true -> byte_ok c1.(B) = true ->
  byte_ok c2.(R) = true -> byte_ok c2.(G) = true -> byte_ok c2.(B) = true ->
  Distance math (of_RGBA8 c1) (of_RGBA8 c2) = nan.
Proof.
  intros HR1 HG1 HB1 HR2 HG2 HB2. unfold Distance.
  rewrite (toLAB_bytes c1 HR1 HG1 HB1), (toLAB_bytes c2 HR2 HG2 HB2).
  apply (distanceLAB_nan_of_cPrimes_zero math _ _ 0 0 Pow_zero_7); [| reflexivity | reflexivity].
  destruct (_ && _ && _), (_ && _ && _); apply cPrimes_grey; assumption.
Qed.

End Eight_bit.

(** * [toXYZ] on every colour

    [RGBA()] returns 16-bit channel values; when [math.Pow] maps
    non-negative bases to non-negative numbers, as Go's does, no XYZ axis
    is negative or NaN. *)

Section Sixteen_bit.

Variable math : GoMath.

Hypothesis Pow_nonneg : forall x, (0 <=? x) = true -> (0 <=? math.(Pow) x 2.4) = true.

Lemma linearized_nonneg u : (0 <= u <= 65535)%Z ->
  (0 <=? linearize math (float64_of_uint32 u / 255) * 100) = true.
Proof.
  intros Hu. destruct (u16_facts u Hu) as (H0 & _).
  apply mul_ge0; [| reflexivity].
  unfold linearize. destruct (0.04045 <? float64_of_uint32 u / 255).
  - apply Pow_nonneg, div_ge0; [apply add_ge0; [exact H0 | reflexivity] | reflexivity].
  - apply div_ge0; [exact H0 | reflexivity].
Qed.

Lemma toXYZ_nonneg c sR sG sB sA : c.(RGBA) = (sR, sG, sB, sA) ->
  (0 <= sR <= 65535)%Z -> (0 <= sG <= 65535)%Z -> (0 <= sB <= 65535)%Z ->
  (0 <=? (toXYZ math c).(x)) = true /\ (0 <=? (toXYZ math c).(y)) = true /\
  (0 <=? (toXYZ math c).(z)) = true.
Proof.
  intros Hc HR HG HB. unfold toXYZ. rewrite Hc. cbv beta iota zeta delta [x y z].
  pose proof (linearized_nonneg _ HR). pose proof (linearized_nonneg _ HG).
  pose proof (linearized_nonneg _ HB).
  split; [| split]; repeat apply add_ge0; apply mul_ge0; first [assumption | reflexivity].
Qed.

End Sixteen_bit.

(** * Dark colours: [toLAB] without [math.Pow] *)

Lemma linearize_dark (math math' : GoMath) u : (0 <= u <= 10)%Z ->
  linearize math (float64_of_uint32 u / 255) = linearize math' (float64_of_uint32 u / 255).
Proof.
  intros Hu. destruct (u16_facts u ltac:(lia)) as (_ & _ & _ & H).
  unfold linearize. rewrite H. replace (11 <=? u)%Z with false by lia. reflexivity.
Qed.

Lemma toXYZ_dark (math math' : GoMath) c sR sG sB sA : c.(RGBA) = (sR, sG, sB, sA) ->
  (0 <= sR <= 10)%Z -> (0 <= sG <= 10)%Z -> (0 <= sB <= 10)%Z ->
  toXYZ math c = toXYZ math' {| RGBA := (sR, sG, sB, 0%Z) |}.
Proof.
  intros Hc HR HG HB. unfold toXYZ. rewrite Hc. cbv beta iota zeta delta [RGBA].
  rewrite (linearize_dark math math' sR HR), (linearize_dark math math' sG HG),
    (linearize_dark math math' sB HB).
  reflexivity.
Qed.

Lemma compand_below (math math' : GoMath) v : (0.008856 <? v) = false ->
  compand math v = compand math' v.
Proof. intros H. unfold compand. rewrite H. reflexivity. Qed.

Lemma dark_all_ok : dark_all = true.
Proof. vm_compute. reflexivity. Qed.

Lemma dark_facts r g b : (0 <= r <= 10)%Z -> (0 <= g <= 10)%Z -> (0 <= b <= 10)%Z ->
  dark_check r g b = true.
Proof.
  intros Hr Hg Hb.
  apply (check_from_spec (dark_check r g) 0 11); [| simpl; lia].
  apply (check_from_spec (fun g => check_from (dark_check r g) 0 11) 0 11); [| simpl; lia].
  apply (check_from_spec _ 0 11 dark_all_ok). simpl. lia.
Qed.

Lemma toLAB_dark (math math' : GoMath) c sR sG sB sA : c.(RGBA) = (sR, sG, sB, sA) ->
  (0 <= sR <= 10)%Z -> (0 <= sG <= 10)%Z -> (0 <= sB <= 10)%Z ->
  toLAB math c = toLAB math' c.
Proof.
  intros Hc HR HG HB. unfold toLAB.
  rewrite (toXYZ_dark math StandIn.math c sR sG sB sA Hc HR HG HB),
    (toXYZ_dark math' StandIn.math c sR sG sB sA Hc HR HG HB).
  pose proof (dark_facts sR sG sB HR HG HB) as H. unfold dark_check in H. cbv zeta in H.
  apply andb_prop in H as [H H3]. apply andb_prop in H as [H1 H2].
  apply negb_true_iff in H1, H2, H3.
  rewrite (compand_below math math' _ H1), (compand_below math math' _ H2),
    (compand_below math math' _ H3).
  reflexivity.
Qed.

(** * The claims *)

(** The special cases of Go's [math] package the theorems assume:
    - [math.Pow(x, ±0) = 1] for any [x];
    - [math.Pow(±0, y) = ±0] for [y] an odd integer [> 0], here [y = 7];
    - [math.Pow(25, 7)] is exact ([25^7 < 2^53] and Go multiplies the
      exact powers of the mantissa [25/32]). *)
(** ** The mean hue and the rotation angle

    The hue angles are [math.Atan2] radians, so the mean hue [hBar0] stays
    within [[-18, 18]] (or is NaN), the exponent of [deltaTheta] is below
    [-100], and [2 deltaTheta] is so small that [math.Asin] and [math.Sin]
    both return it. *)

Module Hue.

Lemma hBar0_small p h1 h2 : small 4 h1 -> small 4 h2 -> small 18 (hBar0 p h1 h2).
Proof.
  intros [-> | H1] [-> | H2]; unfold hBar0;
    rewrite ?add_nan_l, ?add_nan_r, ?sub_nan_l, ?div_nan_l;
    try (destruct (p =? 0); [| destruct (_ <=? 180); [| destruct (_ && _)]]; left; reflexivity).
  assert (Hs : (abs (h1 + h2) <=? 17) = true) by (apply (add_le _ _ 4 4); try reflexivity; assumption || decide_Q).
  assert (Hd : (abs (h1 - h2) <=? 17) = true) by (apply (sub_le _ _ 4 4); try reflexivity; assumption || decide_Q).
  assert (Hd' : (abs (h1 - h2) <=? 180) = true) by (apply (abs_le_weaken 17); try reflexivity; assumption || decide_Q).
  rewrite Hd'. right. destruct (p =? 0).
  - apply (abs_le_weaken 17); try reflexivity; assumption || decide_Q.
  - apply (div_le _ _ 17); try reflexivity; assumption || decide_Q.
Qed.

Section Rotation.

Variable math : GoMath.
Hypothesis HAtan : forall y x, math.(Atan2) y x = nan \/ (abs (math.(Atan2) y x) <=? 4) = true.
Hypothesis HExp : forall u, (100 <=? u) = true -> (abs (math.(Exp) (- u)) <=? 0x1p-100) = true.
Hypothesis HExp_nan : math.(Exp) nan = nan.
Hypothesis HAsin : forall x, (abs x <=? 0x1p-30) = true -> math.(Asin) x = x.
Hypothesis HSin : forall x, (abs x <=? 0x1p-30) = true -> math.(Sin) x = x.
Hypothesis HAsin_nan : math.(Asin) nan = nan.
Hypothesis HSin_nan : math.(Sin) nan = nan.

Lemma hPrime_small b aPrime : small 4 (hPrime math b aPrime).
Proof.
  unfold hPrime. destruct ((b =? 0) && (aPrime =? 0)); [right; reflexivity | apply HAtan].
Qed.

Lemma rotation_tiny hB : small 18 hB ->
  math.(Asin) (2 * (30 * math.(Exp) (- (((hB - 275) / 25) * ((hB - 275) / 25))))) =
  math.(Sin) (2 * (30 * math.(Exp) (- (((hB - 275) / 25) * ((hB - 275) / 25))))).
Proof.
  intros [-> | H].
  - rewrite sub_nan_l, div_nan_l, mul_nan_l, opp_nan, HExp_nan, !mul_nan_r, HAsin_nan, HSin_nan.
    reflexivity.
  - set (v := (275 + - hB) / 25).
    assert (Hv : (10 <=? v) = true).
    { apply (div_ge 250); try reflexivity; [decide_Q |].
      apply (add_ge_abs _ _ 18); try reflexivity; [rewrite abs_opp; exact H | decide_Q]. }
    assert (Hvv : (100 <=? v * v) = true) by (apply (mul_ge2 10 10); try reflexivity; assumption || decide_Q).
    assert (Hsq : ((hB - 275) / 25) * ((hB - 275) / 25) = v * v).
    { unfold v. rewrite <- sub_add_opp. symmetry. apply swapped_sq, swapped_div, sub_swapped. }
    rewrite Hsq. pose proof (HExp _ Hvv) as HE.
    assert (H1 : (abs (30 * math.(Exp) (- (v * v))) <=? 0x1p-90) = true)
      by (apply (mul_le _ _ 30 0x1p-100); try reflexivity; assumption || decide_Q).
    assert (H2 : (abs (2 * (30 * math.(Exp) (- (v * v)))) <=? 0x1p-30) = true)
      by (apply (mul_le _ _ 2 0x1p-90); try reflexivity; assumption || decide_Q).
    rewrite (HAsin _ H2), (HSin _ H2). reflexivity.
Qed.

End Rotation.
End Hue.

Module Claims.

Lemma standin_pow_zero_exponent x : StandIn.math.(Pow) x 0 = 1.
Proof. reflexivity. Qed.

Lemma standin_pow_zero_7 z : (z =? 0) = true -> StandIn.math.(Pow) z 7 = z.
Proof. intros H. destruct (zero_cases z H) as [-> | ->]; reflexivity. Qed.

(** C1: the result is never a non-negative finite number on 8-bit
    colours: for every pair of [color.RGBA] values with byte channels,
    [Distance] returns NaN (both LAB values have [a = b = 0], so the
    [rC] term is [0/0]). *)
Theorem C1_Distance_bytes_nan (math : GoMath) (c1 c2 : RGBA8) :
  (forall x, math.(Pow) x 0 = 1) ->
  (forall x, (1 <=? x) = true -> (1 <=? math.(Pow) x 2.4) = true) ->
  (forall z, (z =? 0) = true -> math.(Pow) z 7 = z) ->
  math.(Pow) 25 7 = 6103515625 ->
  byte_ok c1.(R) = true -> byte_ok c1.(G) = true -> byte_ok c1.(B) = true ->
  byte_ok c2.(R) = true -> byte_ok c2.(G) = true -> byte_ok c2.(B) = true ->
  is_nan (Distance math (of_RGBA8 c1) (of_RGBA8 c2)) = true.
Proof. intros. apply is_nan_spec. apply Distance_bytes_nan; assumption. Qed.

Lemma C1_witness :
  is_nan (Distance StandIn.math (of_RGBA8 {| R := 0; G := 0; B := 0; A := 255 |})
                                (of_RGBA8 {| R := 255; G := 255; B := 255; A := 255 |})) = true.
Proof.
  apply C1_Distance_bytes_nan;
    [exact standin_pow_zero_exponent | intros x Hx; exact Hx | exact standin_pow_zero_7
    | reflexivity ..].
Defined.

(** C2: the companding step maps every value above [0.008856] to
    [math.Pow(v, 0) = 1] (the exponent [1/3] is integer division, 0) and
    every other value to [7.787 * v + 0] ([16/116] is 0 as well). *)
Theorem C2_compand_branches (math : GoMath) (v : float) :
  (forall x, math.(Pow) x 0 = 1) ->
  compand math v = if 0.008856 <? v then 1 else (v * 7.787) + 0.
Proof.
  intros HPow. unfold compand.
  replace (const_int_div 1 3) with 0 by reflexivity.
  replace (const_int_div 16 116) with 0 by reflexivity.
  destruct (0.008856 <? v); [apply HPow | reflexivity].
Qed.

Lemma C2_witness : compand StandIn.math 0.5 = 1.
Proof. apply (C2_compand_branches StandIn.math 0.5 standin_pow_zero_exponent). Defined.

(** C3: line 106 computes [rT := math.Asin(2*deltaTheta) * rC], the
    arcsine where the specification has the sine, but the two agree on
    every input the code can give them.  The hue angles are [math.Atan2]
    radians (C6), so the mean hue [h̄'] is NaN or within [[-18, 18]], far
    from 275; then [Δθ] is at most [30 e^-100] and [2Δθ] is below [2^-30],
    where Go's [math.Asin] and [math.Sin] both return their argument.  So
    for all pairs of LAB inputs [distanceLAB] equals
    [distanceLAB_spec_rT], which computes [R_T = sin(2Δθ) R_C], under
    these properties of Go's [math]: [Atan2] is NaN or in [[-Pi, Pi]];
    [Exp(-u)] is at most [2^-100] for [u >= 100] and [Exp(NaN)] is NaN;
    [Asin] and [Sin] return arguments of magnitude at most [2^-30], and
    NaN for NaN. *)
Theorem C3_rotation_sine (math : GoMath) (l1 l2 : lab) :
  (forall y x, math.(Atan2) y x = nan \/ (abs (math.(Atan2) y x) <=? 4) = true) ->
  (forall u, (100 <=? u) = true -> (abs (math.(Exp) (- u)) <=? 0x1p-100) = true) ->
  math.(Exp) nan = nan ->
  (forall x, (abs x <=? 0x1p-30) = true -> math.(Asin) x = x) ->
  (forall x, (abs x <=? 0x1p-30) = true -> math.(Sin) x = x) ->
  math.(Asin) nan = nan -> math.(Sin) nan = nan ->
  distanceLAB math l1 l2 = distanceLAB_spec_rT math l1 l2.
Proof.
  intros HAtan HExp HExpn HAsin HSin HAsinn HSinn.
  unfold distanceLAB, distanceLAB_spec_rT. cbv zeta.
  rewrite (Hue.rotation_tiny math HExp HExpn HAsin HSin HAsinn HSinn); [reflexivity |].
  apply Hue.hBar0_small; apply (Hue.hPrime_small math HAtan).
Qed.

(** A [math] whose [Exp] is 0 away from NaN, for the example below. *)
Definition exp_zero_math : GoMath := {|
  Pow := StandIn.pow;
  Atan2 := fun _ _ => 0;
  Sin := fun x => x;
  Cos := fun _ => 1;
  Exp := fun x => if is_nan x then nan else 0;
  Asin := fun x => x |}.

Lemma C3_witness :
  distanceLAB exp_zero_math {| l := 50; a := 10; b := 20 |} {| l := 60; a := -5; b := 3 |} =
  distanceLAB_spec_rT exp_zero_math {| l := 50; a := 10; b := 20 |} {| l := 60; a := -5; b := 3 |}.
Proof.
  apply C3_rotation_sine.
  - intros. right. reflexivity.
  - intros u Hu. simpl. destruct (is_nan (- u)) eqn:E; [exfalso | reflexivity].
    apply is_nan_spec in E.
    assert (Hn : u = nan) by (rewrite <- (opp_opp u), E; apply opp_nan).
    rewrite Hn in Hu. vm_compute in Hu. discriminate Hu.
  - reflexivity.
  - intros. reflexivity.
  - intros. reflexivity.
  - reflexivity.
  - reflexivity.
Defined.

(** C4: the rotation magnitude [rC] multiplies [C̄'^7] by [25^7] in the
    denominator, so for [C̄' = 0] it is [0/0], NaN (with an addition it
    would be 0). *)
Theorem C4_rC_zero_nan (math : GoMath) (c : float) :
  (forall z, (z =? 0) = true -> math.(Pow) z 7 = z) ->
  (c =? 0) = true ->
  rC math c = nan.
Proof.
  intros HPow Hc. unfold rC. rewrite (HPow _ Hc).
  destruct (zero_mul_l _ (math.(Pow) 25 7) Hc) as [Hz | Hn].
  - rewrite (zero_div_zero _ _ Hc Hz), sqrt_nan, mul_nan_r. reflexivity.
  - rewrite Hn, div_nan_r, sqrt_nan, mul_nan_r. reflexivity.
Qed.

Lemma C4_witness : rC StandIn.math 0 = nan.
Proof. apply (C4_rC_zero_nan StandIn.math 0 standin_pow_zero_7). reflexivity. Defined.

(** C5: [RGBA()] returns 16-bit channels, so dividing by 255 does not
    normalise into [0, 1]: the 8-bit colour white gives 257 per channel. *)
Theorem C5_normalized_white : normalized white = (257, 257, 257).
Proof. vm_compute. reflexivity. Qed.

(** C6: the hue angle is [math.Atan2] itself, in radians and never
    normalised: as Go's [math.Atan2] of two non-NaN arguments lies in
    [[-Pi, Pi]], the hue angle of non-NaN [b] and [a'] never leaves
    [[-4, 4]] (a hue of 90 degrees comes out as [Pi/2], a hue of 315
    degrees as [-Pi/4]); it is never in [[4, 360)]. *)
Theorem C6_hPrime_bounded (math : GoMath) (b aPrime : float) :
  (forall y x, is_nan y = false -> is_nan x = false ->
     (abs (math.(Atan2) y x) <=? 4) = true) ->
  is_nan b = false -> is_nan aPrime = false ->
  (abs (hPrime math b aPrime) <=? 4) = true.
Proof.
  intros HAtan Hb Ha. unfold hPrime. destruct ((b =? 0) && (aPrime =? 0)).
  - reflexivity.
  - apply HAtan; assumption.
Qed.

Lemma C6_witness : is_nan 10 = false /\ is_nan 0 = false /\
  (abs (hPrime StandIn.math 10 0) <=? 4) = true.
Proof.
  split; [reflexivity | split; [reflexivity |]].
  apply C6_hPrime_bounded; [intros; reflexivity | reflexivity | reflexivity].
Defined.

(** C7: [Distance(c, c)] is not 0 for any 8-bit colour: for every
    [color.RGBA] value with byte channels, Go's comparison
    [Distance(c, c) == 0] is false (the result is NaN). *)
Theorem C7_Distance_self_bytes (math : GoMath) (c : RGBA8) :
  (forall x, math.(Pow) x 0 = 1) ->
  (forall x, (1 <=? x) = true -> (1 <=? math.(Pow) x 2.4) = true) ->
  (forall z, (z =? 0) = true -> math.(Pow) z 7 = z) ->
  math.(Pow) 25 7 = 6103515625 ->
  byte_ok c.(R) = true -> byte_ok c.(G) = true -> byte_ok c.(B) = true ->
  (Distance math (of_RGBA8 c) (of_RGBA8 c) =? 0) = false.
Proof. intros. rewrite Distance_bytes_nan by assumption. reflexivity. Qed.

Lemma C7_witness :
  (Distance StandIn.math (of_RGBA8 {| R := 255; G := 255; B := 255; A := 255 |})
                         (of_RGBA8 {| R := 255; G := 255; B := 255; A := 255 |}) =? 0) = false.
Proof.
  apply C7_Distance_self_bytes;
    [exact standin_pow_zero_exponent | intros x Hx; exact Hx | exact standin_pow_zero_7
    | reflexivity ..].
Defined.

(** C8: [Distance] is symmetric: [Distance(c1, c2)] and [Distance(c2, c1)]
    are the same float64 for all colours (also when the result is NaN),
    given that [math.Sin] is odd and [math.Sin(0) = 0], as Go's is. *)
Theorem C8_Distance_comm (math : GoMath) (c1 c2 : Color) :
  (forall x, math.(Sin) (- x) = - math.(Sin) x) ->
  math.(Sin) 0 = 0 ->
  Distance math c1 c2 = Distance math c2 c1.
Proof. intros Hodd H0. unfold Distance. apply distanceLAB_comm; assumption. Qed.

Lemma C8_witness : Distance StandIn.math black white = Distance StandIn.math white black.
Proof. apply C8_Distance_comm; [intros; reflexivity | reflexivity]. Defined.

Lemma toLAB_dim_red_any (math : GoMath) : toLAB math dim_red = toLAB StandIn.math dim_red.
Proof. vm_compute. reflexivity. Qed.

(** C9 (as amended): for a [color.RGBA] with byte channels, [toLAB]
    returns [(L, a, b) = (-16, 0, 0)] when the three colour channels are 0
    and exactly [(100, 0, 0)] otherwise, given [math.Pow(v, 0) = 1] and
    [math.Pow(x, 2.4) >= 1] for [x >= 1]. *)
Theorem C9_toLAB_8bit (math : GoMath) (c : RGBA8) :
  (forall x, math.(Pow) x 0 = 1) ->
  (forall x, (1 <=? x) = true -> (1 <=? math.(Pow) x 2.4) = true) ->
  byte_ok c.(R) = true -> byte_ok c.(G) = true -> byte_ok c.(B) = true ->
  toLAB math (of_RGBA8 c) =
    if (c.(R) =? 0)%Z && (c.(G) =? 0)%Z && (c.(B) =? 0)%Z
    then {| l := -16; a := 0; b := 0 |}
    else {| l := 100; a := 0; b := 0 |}.
Proof.
  intros H0 H1. apply toLAB_bytes; assumption.
Qed.

Lemma C9_witness :
  toLAB StandIn.math (of_RGBA8 {| R := 200; G := 0; B := 0; A := 255 |}) =
  {| l := 100; a := 0; b := 0 |}.
Proof.
  apply (C9_toLAB_8bit StandIn.math {| R := 200; G := 0; B := 0; A := 255 |});
    [exact standin_pow_zero_exponent | | reflexivity | reflexivity | reflexivity].
  intros x Hx. exact Hx.
Defined.

(** C9: the 8-bit colour [color.NRGBA{1, 0, 0, 1}] has a non-zero channel,
    and its LAB value has [a <> 0] (and [L <> 100]). *)
Lemma C9_counterexample :
  (toLAB StandIn.math dim_red).(a) <> 0 /\ (toLAB StandIn.math dim_red).(l) <> 100.
Proof.
  split; intros H; [apply (f_equal (fun f => f =? 0)) in H | apply (f_equal (fun f => f =? 100)) in H];
    vm_compute in H; discriminate H.
Qed.

(** C10: when both corrected chromas [C'_1], [C'_2] are zero, the
    [rC] term is [0/0] and [Distance] returns NaN. *)
Theorem C10_Distance_nan_of_zero_chromas (math : GoMath) (c1 c2 : Color) (p1 p2 : float) :
  (forall z, (z =? 0) = true -> math.(Pow) z 7 = z) ->
  cPrimes math (toLAB math c1) (toLAB math c2) = (p1, p2) ->
  (p1 =? 0) = true -> (p2 =? 0) = true ->
  is_nan (Distance math c1 c2) = true.
Proof.
  intros HPow H H1 H2. apply is_nan_spec. unfold Distance.
  exact (distanceLAB_nan_of_cPrimes_zero _ _ _ _ _ HPow H H1 H2).
Qed.

Lemma C10_witness :
  cPrimes StandIn.math (toLAB StandIn.math black) (toLAB StandIn.math black) = (0, 0) /\
  is_nan (Distance StandIn.math black black) = true.
Proof.
  split.
  - vm_compute. reflexivity.
  - apply (C10_Distance_nan_of_zero_chromas StandIn.math black black 0 0 standin_pow_zero_7);
      [vm_compute; reflexivity | reflexivity | reflexivity].
Defined.

End Claims.

(** * Further properties of the code *)

Module Extras.

(** X1: [toXYZ] divides each 16-bit [RGBA()] channel value by 255, so the
    normalised channels lie between 0 and 257, and are above 1 exactly for
    the channel values above 255. *)
Theorem X1_normalized_range (c : Color) (sR sG sB sA : Z) :
  c.(RGBA) = (sR, sG, sB, sA) ->
  (0 <= sR <= 65535)%Z -> (0 <= sG <= 65535)%Z -> (0 <= sB <= 65535)%Z ->
  let '(r, g, b) := normalized c in
  channel_range sR r /\ channel_range sG g /\ channel_range sB b.
Proof.
  intros Hc HR HG HB. unfold normalized. rewrite Hc. cbv beta iota zeta.
  assert (Hr : forall u, (0 <= u <= 65535)%Z -> channel_range u (float64_of_uint32 u / 255)).
  { intros u Hu. destruct (u16_facts u Hu) as (H1 & H2 & H3 & _).
    unfold channel_range. auto. }
  auto.
Qed.

Lemma X1_witness :
  let '(r, g, b) := normalized (of_RGBA64 {| R16 := 65535; G16 := 300; B16 := 0; A16 := 65535 |}) in
  channel_range 65535 r /\ channel_range 300 g /\ channel_range 0 b.
Proof. apply (X1_normalized_range _ 65535 300 0 65535); [reflexivity | lia | lia | lia]. Defined.

(** X2: the linearisation in [toXYZ] calls [math.Pow] on a normalised
    16-bit channel exactly when the channel value is at least 11, and
    divides by 12.92 otherwise. *)
Theorem X2_linearize_threshold (math : GoMath) (u : Z) : (0 <= u <= 65535)%Z ->
  linearize math (float64_of_uint32 u / 255) =
  if (11 <=? u)%Z then math.(Pow) ((float64_of_uint32 u / 255 + 0.055) / 1.055) 2.4
  else float64_of_uint32 u / 255 / 12.92.
Proof.
  intros Hu. destruct (u16_facts u Hu) as (_ & _ & _ & H).
  unfold linearize. rewrite H. reflexivity.
Qed.

Lemma X2_witness :
  linearize StandIn.math (float64_of_uint32 10 / 255) = float64_of_uint32 10 / 255 / 12.92.
Proof. apply (X2_linearize_threshold StandIn.math 10). lia. Defined.

(** X3: for a [color.RGBA] byte channel [v], the channel [toXYZ] computes
    (normalised, linearised, times 100) is exactly 0 when [v = 0], and at
    least 100 otherwise, when [math.Pow(x, 2.4) >= 1] for [x >= 1]. *)
Theorem X3_byte_channel (math : GoMath) (v : Z) :
  (forall x, (1 <=? x) = true -> (1 <=? math.(Pow) x 2.4) = true) ->
  byte_ok v = true ->
  (v = 0%Z /\ linearize math (float64_of_uint32 (widen8 v) / 255) * 100 = 0) \/
  (v <> 0%Z /\ (100 <=? linearize math (float64_of_uint32 (widen8 v) / 255) * 100) = true).
Proof. intros HP Hv. apply channel_cases; assumption. Qed.

Lemma X3_witness :
  (200%Z = 0%Z /\ linearize StandIn.math (float64_of_uint32 (widen8 200) / 255) * 100 = 0) \/
  (200%Z <> 0%Z /\
   (100 <=? linearize StandIn.math (float64_of_uint32 (widen8 200) / 255) * 100) = true).
Proof. apply X3_byte_channel; [intros x Hx; exact Hx | reflexivity]. Defined.

(** X4: [toXYZ] of a [color.RGBA] with byte channels is [(0, 0, 0)] when
    the three colour channels are 0, whatever the alpha; otherwise
    [X >= 18], [Y >= 7] and [Z >= 1.875], when [math.Pow(x, 2.4) >= 1]
    for [x >= 1]. *)
Theorem X4_toXYZ_bytes (math : GoMath) (c : RGBA8) :
  (forall x, (1 <=? x) = true -> (1 <=? math.(Pow) x 2.4) = true) ->
  byte_ok c.(R) = true -> byte_ok c.(G) = true -> byte_ok c.(B) = true ->
  if (c.(R) =? 0)%Z && (c.(G) =? 0)%Z && (c.(B) =? 0)%Z
  then toXYZ math (of_RGBA8 c) = {| x := 0; y := 0; z := 0 |}
  else (18 <=? (toXYZ math (of_RGBA8 c)).(x)) = true /\
       (7 <=? (toXYZ math (of_RGBA8 c)).(y)) = true /\
       (1.875 <=? (toXYZ math (of_RGBA8 c)).(z)) = true.
Proof. intros HP HR HG HB. apply toXYZ_bytes; assumption. Qed.

Lemma X4_witness :
  (18 <=? (toXYZ StandIn.math (of_RGBA8 {| R := 0; G := 0; B := 1; A := 255 |})).(x)) = true /\
  (7 <=? (toXYZ StandIn.math (of_RGBA8 {| R := 0; G := 0; B := 1; A := 255 |})).(y)) = true /\
  (1.875 <=? (toXYZ StandIn.math (of_RGBA8 {| R := 0; G := 0; B := 1; A := 255 |})).(z)) = true.
Proof.
  apply (X4_toXYZ_bytes StandIn.math {| R := 0; G := 0; B := 1; A := 255 |});
    [intros x Hx; exact Hx | reflexivity | reflexivity | reflexivity].
Defined.

(** X5: for every colour whose [RGBA()] channels are 16-bit values, no
    axis of [toXYZ] is negative or NaN, when [math.Pow(x, 2.4) >= 0] for
    [x >= 0]. *)
Theorem X5_toXYZ_nonneg (math : GoMath) (c : Color) (sR sG sB sA : Z) :
  (forall x, (0 <=? x) = true -> (0 <=? math.(Pow) x 2.4) = true) ->
  c.(RGBA) = (sR, sG, sB, sA) ->
  (0 <= sR <= 65535)%Z -> (0 <= sG <= 65535)%Z -> (0 <= sB <= 65535)%Z ->
  (0 <=? (toXYZ math c).(x)) = true /\ (0 <=? (toXYZ math c).(y)) = true /\
  (0 <=? (toXYZ math c).(z)) = true.
Proof. intros HP Hc HR HG HB. apply (toXYZ_nonneg math HP c sR sG sB sA); assumption. Qed.

Lemma X5_witness :
  let c := of_RGBA64 {| R16 := 65535; G16 := 300; B16 := 5; A16 := 0 |} in
  (0 <=? (toXYZ StandIn.math c).(x)) = true /\ (0 <=? (toXYZ StandIn.math c).(y)) = true /\
  (0 <=? (toXYZ StandIn.math c).(z)) = true.
Proof.
  apply (X5_toXYZ_nonneg StandIn.math _ 65535 300 5 0);
    [intros x Hx; exact Hx | reflexivity | lia | lia | lia].
Defined.

(** X6: [Distance] ends in [math.Sqrt], so it never returns a number below
    0 (a negative argument gives NaN), for any colours and any [math]. *)
Theorem X6_Distance_not_negative (math : GoMath) (c1 c2 : Color) :
  (Distance math c1 c2 <? 0) = false.
Proof. unfold Distance, distanceLAB. cbv zeta. apply sqrt_not_neg. Qed.

(** X7: for a colour whose 16-bit [RGBA()] channels are all at most 10,
    [toLAB] takes the branch without [math.Pow] in all six conditionals, so
    its LAB value is the same for every implementation of [math]. *)
Theorem X7_toLAB_dark (math math' : GoMath) (c : Color) (sR sG sB sA : Z) :
  c.(RGBA) = (sR, sG, sB, sA) ->
  (0 <= sR <= 10)%Z -> (0 <= sG <= 10)%Z -> (0 <= sB <= 10)%Z ->
  toLAB math c = toLAB math' c.
Proof. intros Hc HR HG HB. apply (toLAB_dark math math' c sR sG sB sA); assumption. Qed.

Lemma X7_witness :
  toLAB StandIn.math (of_RGBA64 {| R16 := 10; G16 := 3; B16 := 0; A16 := 65535 |}) =
  toLAB {| Pow := fun _ _ => 0; Atan2 := fun _ _ => 0; Sin := fun t => t;
           Cos := fun _ => 1; Exp := fun _ => 1; Asin := fun t => t |}
        (of_RGBA64 {| R16 := 10; G16 := 3; B16 := 0; A16 := 65535 |}).
Proof. apply (X7_toLAB_dark _ _ _ 10 3 0 65535); [reflexivity | lia | lia | lia]. Defined.

End Extras.
